(** * Maximo work-actuals export: the aggregation pipeline of
    [pge_test_script.js], embedded in Rocq.

    The script reads the changed time records of an incremental export batch,
    drops those outside the configured pay codes and work-order prefixes,
    zeroes the rate of employees without a union code, sums the records of a
    group in a [WorkActualsData] table and writes one row per table entry
    whose hours are not zero.

    Conventions of the embedding.
    - Host records ([exportRecords[i]]) answer to a field name in either case
      (the script reads [Record.LD1] and [Record.ld1], [Record.EFF_RATE] and
      [Record.eff_rate] of the same record), so a record is a fixed-shape
      structure named after the upper-case spelling.
    - The first part takes numbers as exact integers ([Z]); it carries the
      statements on the shape of the output: which records are kept, dropped
      or rolled back, how the batch is cut into groups, which entries the
      table holds. Module [Binary64] repeats the pipeline over the script's
      own numbers (binary64, with [==] and [!=] of IEEE 754 and the decimal
      text of a number in the match key) and reads the union-code map through
      the prototype chain; it carries the statements on sums, rates and the
      union-code lookup.
    - [LD1] may be [null] (no work order); every other field has a value.
    - [LookupTable], [inArray], [isBlank] and the date type are host library
      code; their models are marked where they are introduced. *)

From Stdlib Require Import ZArith Lia List Ascii String DecimalString.
From Stdlib Require DecimalZ DecimalPos.
From Stdlib Require Floats.
From stdpp Require Import base option list strings gmap.
From Equations Require Import Equations.
From Equations.Prop Require Logic.

Local Open Scope Z_scope.
Local Open Scope string_scope.
Local Open Scope list_scope.

(** ** Constants *)

Definition DOUBLE_RATE_PAY_CODES : list string :=
  ["GOLDEN_TIME"; "HIGH_TIME"; "PREMIUM_UPGRADE_PAY"].

Definition VALID_FWO_PREFIXES : list string := ["M"; "F"].

Definition WORKED_ALLOCATED_REG : string := "WORKED_ALLOCATED_REG".

(** ** Records *)

(** One line of the export batch, with the fields the script reads. *)
Record Record_ := mkRecord {
  DISPLAY_EMPLOYEE : string;
  WORK_DT : string;
  LD1 : option string;
  PAY_CODE : string;
  EFF_RATE : Z;
  LD8 : string;
  HOURS : Z;
  UNIT9 : Z
}.

(** The values of [GROUP_FIELDS], in the order of that array. *)
Record GroupFields := mkGroup {
  g_DISPLAY_EMPLOYEE : string;
  g_WORK_DT : string;
  g_LD1 : option string;
  g_PAY_CODE : string;
  g_EFF_RATE : Z;
  g_LD8 : string
}.

Definition groupFields (r : Record_) : GroupFields :=
  mkGroup (DISPLAY_EMPLOYEE r) (WORK_DT r) (LD1 r) (PAY_CODE r) (EFF_RATE r) (LD8 r).

#[global] Instance GroupFields_eq_dec : EqDecision GroupFields.
Proof. solve_decision. Defined.

#[global] Instance Record_eq_dec : EqDecision Record_.
Proof. solve_decision. Defined.

(** One entry of the summarising table ([initData] in [addData]). *)
Record Aggregate := mkAggregate {
  fwo : option string;
  emplid : string;
  workDt : string;
  payCode : string;
  rate : Z;
  jobCode : string;
  inTransit : Z;
  hours : Z
}.

#[global] Instance Aggregate_eq_dec : EqDecision Aggregate.
Proof. solve_decision. Defined.

(** ** Host helpers *)

(** Modelled from the spec: [inArray] of the host's JS_UTIL library, which is
    not part of the script; membership of a value in an array. *)
Definition inArray (xs : list string) (x : string) : bool :=
  bool_decide (x ∈ xs).

(** Text of an integer and of a possibly null string inside a match key;
    [Binary64.showNumber] gives the text of every number. *)
Definition showZ (z : Z) : string := NilZero.string_of_int (Z.to_int z).

Definition showNullable (o : option string) : string :=
  match o with Some s => s | None => "null" end.

(** ** WorkActualsData *)

(** Modelled from the spec: the host's [LookupTable], which is not part of the
    script; a keyed table whose [getKeyArray] lists the keys in the order of
    their first [set]. *)
Definition LookupTable := list (string * Aggregate).

Fixpoint lt_get (k : string) (t : LookupTable) : option Aggregate :=
  match t with
  | [] => None
  | (k', a) :: t' => if decide (k' = k) then Some a else lt_get k t'
  end.

Definition lt_containsKey (k : string) (t : LookupTable) : bool :=
  bool_decide (is_Some (lt_get k t)).

Fixpoint lt_alter (f : Aggregate → Aggregate) (k : string) (t : LookupTable)
  : LookupTable :=
  match t with
  | [] => []
  | (k', a) :: t' =>
      if decide (k' = k) then (k', f a) :: t' else (k', a) :: lt_alter f k t'
  end.

Definition lt_set (k : string) (a : Aggregate) (t : LookupTable) : LookupTable :=
  if lt_containsKey k t then lt_alter (λ _, a) k t else (t ++ [(k, a)])%list.

Definition lt_getKeyArray (t : LookupTable) : list string := t.*1.

(** [WorkActualsData_getMatchKey]. *)
Definition getMatchKey (r : Record_) : string :=
  "|" +:+ DISPLAY_EMPLOYEE r +:+ "|" +:+ WORK_DT r +:+ "|"
      +:+ showNullable (LD1 r) +:+ "|" +:+ PAY_CODE r +:+ "|"
      +:+ showZ (EFF_RATE r) +:+ "|" +:+ LD8 r +:+ "|".

(** The entry created for a key that is not in the table yet.
    [convertWDate] is host code; the date is kept as the record has it. *)
Definition initData (r : Record_) : Aggregate :=
  {| fwo := LD1 r;
     emplid := DISPLAY_EMPLOYEE r;
     workDt := WORK_DT r;
     payCode := PAY_CODE r;
     rate := if inArray DOUBLE_RATE_PAY_CODES (PAY_CODE r)
             then 2 * EFF_RATE r else EFF_RATE r;
     jobCode := LD8 r;
     inTransit := 0;
     hours := 0 |}.

Definition addHours (d : Z) (a : Aggregate) : Aggregate :=
  {| fwo := fwo a; emplid := emplid a; workDt := workDt a; payCode := payCode a;
     rate := rate a; jobCode := jobCode a; inTransit := inTransit a;
     hours := hours a + d |}.

Definition addTransit (d : Z) (a : Aggregate) : Aggregate :=
  {| fwo := fwo a; emplid := emplid a; workDt := workDt a; payCode := payCode a;
     rate := rate a; jobCode := jobCode a; inTransit := inTransit a + d;
     hours := hours a |}.

(** Lines 105-122 of [addData]: create the entry if needed, then add the
    record's hours less transit, and its transit. *)
Definition accumulate (t : LookupTable) (r : Record_) : LookupTable :=
  let matchKey := getMatchKey r in
  let t1 := if lt_containsKey matchKey t then t
            else lt_set matchKey (initData r) t in
  let t2 := lt_alter (addHours (HOURS r - UNIT9 r)) matchKey t1 in
  lt_alter (addTransit (UNIT9 r)) matchKey t2.

(** Lines 127-133 of [addData]: the record that takes the hours back out of
    the regular bucket. *)
Definition adjRecord (r : Record_) : Record_ :=
  {| DISPLAY_EMPLOYEE := DISPLAY_EMPLOYEE r;
     WORK_DT := WORK_DT r;
     LD1 := LD1 r;
     PAY_CODE := WORKED_ALLOCATED_REG;
     EFF_RATE := EFF_RATE r;
     LD8 := LD8 r;
     HOURS := -1 * (HOURS r - UNIT9 r);
     UNIT9 := -1 * UNIT9 r |}.

(** How many more times [addData] can call itself on a record. *)
Definition spawns (r : Record_) : nat :=
  if inArray DOUBLE_RATE_PAY_CODES (PAY_CODE r) then 1%nat else 0%nat.

(** [WorkActualsData_addData], with the recursion of the source. *)
Equations? addData (t : LookupTable) (r : Record_) : LookupTable
  by wf (spawns r) lt :=
addData t r with Equations.Prop.Logic.inspect (inArray DOUBLE_RATE_PAY_CODES (PAY_CODE r)) := {
  | exist _ true Hd => addData (accumulate t r) (adjRecord r)
  | exist _ false Hd => accumulate t r }.
Proof. unfold spawns. rewrite Hd. simpl. lia. Qed.

(** The call structure of [addData] as the source has it: the table after the
    call, and how deep the call nested into itself. *)
Inductive addData_run : LookupTable → Record_ → nat → LookupTable → Prop :=
  | run_plain t r :
      inArray DOUBLE_RATE_PAY_CODES (PAY_CODE r) = false →
      addData_run t r 0 (accumulate t r)
  | run_spawn t r n t' :
      inArray DOUBLE_RATE_PAY_CODES (PAY_CODE r) = true →
      addData_run (accumulate t r) (adjRecord r) n t' →
      addData_run t r (S n) t'.

(** One written line: the values appended by [writeData], in file order.
    Formatting numbers and the date is left to the host's writer. *)
Record Row := mkRow {
  row_HOURS : Z;
  row_FWO : option string;
  row_EMPLID : string;
  row_WORK_DATE : string;
  row_PAY_CODE : string;
  row_RATE : Z;
  row_JOB_CODE : string;
  row_INTRANSIT : Z
}.

#[global] Instance Row_eq_dec : EqDecision Row.
Proof. solve_decision. Defined.

Definition rowOf (a : Aggregate) : Row :=
  mkRow (hours a) (fwo a) (emplid a) (workDt a) (payCode a) (rate a)
        (jobCode a) (inTransit a).

(** [WorkActualsData_writeData]: the lines handed to the writer. *)
Definition writeData (t : LookupTable) : list Row :=
  flat_map (λ k, match lt_get k t with
                 | Some a => if decide (hours a = 0) then [] else [rowOf a]
                 | None => []
                 end)
           (lt_getKeyArray t).

(** ** The per-record pipeline of [processExportRecords] *)

(** The globals assigned by [main]: the pay codes to export and the map from
    employee to union code ([None] when no map was built). *)
Record Env := mkEnv {
  payCodeSet : list string;
  unionCodeMap : option (gmap string (option string))
}.

Definition Exn := string.

(** Modelled from the spec: [isBlank] of the host's JS_UTIL library, which is
    not part of the script; per the comment above [isUnionCodeNull] it holds
    of a null, undefined or empty value. *)
Definition isBlank (v : option string) : bool :=
  match v with
  | None => true
  | Some s => bool_decide (s = "")
  end.

(** [isUnionCodeNull]. A key without entry reads as undefined, like one
    mapped to null. The names that the map object inherits from
    [Object.prototype] are left to [Binary64.getProperty]. *)
Definition isUnionCodeNull (env : Env) (display_employee : string) : Exn + bool :=
  match unionCodeMap env with
  | None => inl "Union Code mapping is not available"
  | Some m => inr (isBlank (m !! display_employee ≫= id))
  end.

Definition upperAscii (c : ascii) : ascii :=
  let n := nat_of_ascii c in
  if (97 <=? n)%nat && (n <=? 122)%nat then ascii_of_nat (n - 32) else c.

(** [s.substr(0, 1).toUpperCase()]. *)
Definition firstCharUpper (s : string) : string :=
  match s with
  | EmptyString => EmptyString
  | String c _ => String (upperAscii c) EmptyString
  end.

Record State := mkState {
  curData : option GroupFields;
  summedRecords : LookupTable;
  written : list Row;
  rolledBack : list Record_;
  recordCount : nat
}.

Definition initState : State := mkState None [] [] [] 0%nat.

(** Lines 213-219: does the record differ from [curData] in a group field. *)
Definition groupingChange (st : State) (r : Record_) : bool :=
  negb (bool_decide (curData st = Some (groupFields r))).

(** Lines 220-225: on a change, write the table out and start a new one. *)
Definition flushGroup (st : State) (r : Record_) : State :=
  if groupingChange st r then
    {| curData := Some (groupFields r);
       summedRecords := [];
       written := (written st ++ writeData (summedRecords st))%list;
       rolledBack := rolledBack st;
       recordCount := recordCount st |}
  else st.

(** [Record.eff_rate = 0]. *)
Definition zeroRate (r : Record_) : Record_ :=
  {| DISPLAY_EMPLOYEE := DISPLAY_EMPLOYEE r; WORK_DT := WORK_DT r; LD1 := LD1 r;
     PAY_CODE := PAY_CODE r; EFF_RATE := 0; LD8 := LD8 r; HOURS := HOURS r;
     UNIT9 := UNIT9 r |}.

(** What lines 227-239 decide about a record: leave it out ([continue]),
    fail, or hand it, rate possibly zeroed, to the table. *)
Inductive Screened :=
  | Drop
  | Raise (e : Exn)
  | Keep (r : Record_).

Definition screen (env : Env) (r : Record_) : Screened :=
  if negb (inArray (payCodeSet env) (PAY_CODE r)) then Drop else
  match LD1 r with
  | None => Raise "TypeError: cannot call method substr of null"
  | Some ld1 =>
      let prefix := firstCharUpper ld1 in
      if negb (inArray VALID_FWO_PREFIXES prefix) then Drop else
      match isUnionCodeNull env (DISPLAY_EMPLOYEE r) with
      | inl e => Raise e
      | inr b => Keep (if b then zeroRate r else r)
      end
  end.

Inductive BodyResult :=
  | Skipped
  | Added
  | Threw (e : Exn).

(** The [try] block of lines 209-243. *)
Definition tryBody (env : Env) (st : State) (r : Record_) : State * BodyResult :=
  let st1 := flushGroup st r in
  match screen env r with
  | Drop => (st1, Skipped)
  | Raise e => (st1, Threw e)
  | Keep r' =>
      ({| curData := curData st1;
          summedRecords := addData (summedRecords st1) r';
          written := written st1;
          rolledBack := rolledBack st1;
          recordCount := S (recordCount st1) |}, Added)
  end.

(** One turn of the loop: the [try] block and its [catch]. *)
Definition step (env : Env) (st : State) (r : Record_) : State :=
  match tryBody env st r with
  | (st', Threw _) =>
      {| curData := curData st';
         summedRecords := summedRecords st';
         written := written st';
         rolledBack := (rolledBack st' ++ [r])%list;
         recordCount := recordCount st' |}
  | (st', _) => st'
  end.

Definition processLoop (env : Env) (st : State) (exportRecords : list Record_)
  : State :=
  fold_left (step env) exportRecords st.

(** Line 252: the table left after the last record is written as well. *)
Definition finish (st : State) : State :=
  {| curData := curData st;
     summedRecords := summedRecords st;
     written := (written st ++ writeData (summedRecords st))%list;
     rolledBack := rolledBack st;
     recordCount := recordCount st |}.

(** [processExportRecords] on a batch that is delivered in full. *)
Definition processExportRecords (env : Env) (exportRecords : list Record_)
  : State :=
  finish (processLoop env initState exportRecords).

(** ** The export window *)

(** Modelled from the spec: the host's [WFSDate], which is not part of the
    script; a calendar date with the usual month arithmetic (the day is cut
    back to the length of the target month). *)
Record WFSDate := mkDate { year : Z; month : Z; day : Z }.

#[global] Instance WFSDate_eq_dec : EqDecision WFSDate.
Proof. solve_decision. Defined.

Definition isLeap (y : Z) : bool :=
  (((y mod 4 =? 0) && negb (y mod 100 =? 0)) || (y mod 400 =? 0))%Z.

Definition daysInMonth (y m : Z) : Z :=
  if (m =? 2)%Z then (if isLeap y then 29 else 28)
  else if ((m =? 4) || (m =? 6) || (m =? 9) || (m =? 11))%Z then 30
  else 31.

Definition validDate (d : WFSDate) : Prop :=
  1 <= month d <= 12 ∧ 1 <= day d <= daysInMonth (year d) (month d).

Definition addMonths (d : WFSDate) (n : Z) : WFSDate :=
  let idx := year d * 12 + (month d - 1) + n in
  let y := idx / 12 in
  let m := idx mod 12 + 1 in
  mkDate y m (Z.min (day d) (daysInMonth y m)).

(** The day after [d]. *)
Definition tomorrow (d : WFSDate) : WFSDate :=
  if (day d <? daysInMonth (year d) (month d))%Z then
    mkDate (year d) (month d) (day d + 1)
  else if (month d <? 12)%Z then mkDate (year d) (month d + 1) 1
  else mkDate (year d + 1) 1 1.

Record WFSDateRange := mkRange { getStart : WFSDate; getEnd : WFSDate }.

(** What [getPolicyProfilePeriodStatus] answers. *)
Record PeriodStatus := mkPeriodStatus { PPG : string; CurPrdBeg : WFSDate }.

(** [findCurrentPeriod]. [ppBegin] is assigned only for period group PGE;
    otherwise calling [addMonths] on it fails. *)
Definition findCurrentPeriod (policyProfilePeriodStatus : PeriodStatus)
    (today : WFSDate) : Exn + WFSDateRange :=
  if decide (PPG policyProfilePeriodStatus = "PGE") then
    let ppBegin := CurPrdBeg policyProfilePeriodStatus in
    inr (mkRange (addMonths ppBegin (-3)) (addMonths today 1))
  else inl "TypeError: cannot call method addMonths of undefined".

Record DiffParms := mkDiffParms {
  startDate : WFSDate;
  endDate : WFSDate;
  negateNumericFields : bool;
  retractOnTerm : bool;
  periodPeriodMode : string;
  gracePeriod : Z;
  logData : bool
}.

(** [INCR_EXPORT_DIFF_PARMS], built when the script is loaded. *)
Definition INCR_EXPORT_DIFF_PARMS (status : PeriodStatus) (today : WFSDate)
  : Exn + DiffParms :=
  match findCurrentPeriod status today, findCurrentPeriod status today with
  | inr r1, inr r2 =>
      inr (mkDiffParms (getStart r1) (getEnd r2) true true
                       "PRIOR_PERIOD_ON_CHANGE" 1440 true)
  | inl e, _ => inl e
  | _, inl e => inl e
  end.

(** ** The run *)

(** [buildUnionCodeMap]: later rows of the employee list overwrite earlier
    ones. *)
Definition buildUnionCodeMap (results : list (string * option string))
  : gmap string (option string) :=
  fold_left (λ returnMap res, <[res.1 := res.2]> returnMap) results ∅.

(** What the host hands to one run: the pay-code set, the employees with
    their union codes, the changed records in export order ([None] when the
    difference computation fails), and the turn of the loop at which an abort
    request is seen, if any. *)
Record Host := mkHost {
  h_payCodes : list string;
  h_employees : list (string * option string);
  h_batch : option (list Record_);
  h_abortAt : option nat
}.

(** [processExportRecords] with the ways it can fail before the loop or
    between two records. *)
Definition processExportRecordsOn (env : Env) (h : Host) : State * option Exn :=
  match h_batch h with
  | None => (initState, Some "computeDifferences failed")
  | Some exportRecords =>
      match h_abortAt h with
      | Some n =>
          if (n <? length exportRecords)%nat
          then (processLoop env initState (take n exportRecords),
                Some "abort requested")
          else (processExportRecords env exportRecords, None)
      | None => (processExportRecords env exportRecords, None)
      end
  end.

Record RunResult := mkRunResult {
  run_state : State;
  run_caught : option Exn;
  run_rollbackExport : bool;
  run_writerClosed : bool;
  run_uncaught : option Exn
}.

(** Lines 341-354 of [main], once the globals hold [env]. [run_caught] is the
    error that reached the handler of [main], if any. In the handler the
    argument [exportBatchId] is a local of [processExportRecords] and is not
    in scope, so evaluating the call fails before [rollbackExport] runs; the
    [finally] block closes the writer either way. *)
Definition runExport (env : Env) (h : Host) : RunResult :=
  match processExportRecordsOn env h with
  | (st, None) => mkRunResult st None false true None
  | (st, Some e) =>
      mkRunResult st (Some e) false true
        (Some "ReferenceError: exportBatchId is not defined")
  end.

(** [main]: the writer is opened, the globals are loaded, the export runs. *)
Definition main (h : Host) : RunResult :=
  let payCodeSet := h_payCodes h in
  let unionCodeMap := buildUnionCodeMap (h_employees h) in
  runExport (mkEnv payCodeSet (Some unionCodeMap)) h.

(** ** Quantities the statements speak about *)

(** What one record does to the entry of its key. *)
Definition bump (r : Record_) (a : Aggregate) : Aggregate :=
  addTransit (UNIT9 r) (addHours (HOURS r - UNIT9 r) a).

(** Hours less transit, and transit, summed over a run of records. *)
Definition netHours (run : list Record_) : Z :=
  foldr (λ r acc, (HOURS r - UNIT9 r) + acc) 0 run.

Definition transitHours (run : list Record_) : Z :=
  foldr (λ r acc, UNIT9 r + acc) 0 run.

(** The state with earlier output put in front of its own. *)
Definition shift (w : list Row) (rb : list Record_) (n : nat) (st : State)
  : State :=
  {| curData := curData st;
     summedRecords := summedRecords st;
     written := (w ++ written st)%list;
     rolledBack := (rb ++ rolledBack st)%list;
     recordCount := (n + recordCount st)%nat |}.

(** The group of the last record of a batch, if there is one. *)
Definition lastGroup (l : list Record_) : option GroupFields :=
  groupFields <$> last l.

Definition headGroup (l : list Record_) : option GroupFields :=
  groupFields <$> head l.

(** The records of a batch that reach the table, as they reach it, and those
    whose turn fails. *)
Definition keptOf (env : Env) (l : list Record_) : list Record_ :=
  omap (λ r, match screen env r with Keep r' => Some r' | _ => None end) l.

Definition raises (env : Env) (r : Record_) : bool :=
  match screen env r with Raise _ => true | _ => false end.

Definition raisedOf (env : Env) (l : list Record_) : list Record_ :=
  List.filter (raises env) l.

(** No record of [l1] shares its group with the record that follows it at the
    start of [l2]. *)
Definition boundary (l1 l2 : list Record_) : Prop :=
  ∀ g, lastGroup l1 = Some g → headGroup l2 ≠ Some g.

(** The record as line 238 leaves it, given the union-code map. *)
Definition overridden (m : gmap string (option string)) (r : Record_)
  : Record_ :=
  if isBlank (m !! DISPLAY_EMPLOYEE r ≫= id) then zeroRate r else r.

(** The rate a group carries into the table. *)
Definition effectiveRate (m : gmap string (option string)) (g : GroupFields)
  : Z :=
  if isBlank (m !! g_DISPLAY_EMPLOYEE g ≫= id) then 0 else g_EFF_RATE g.

(** The record filter passes the group: its pay code is exported and its work
    order starts with a valid prefix. *)
Definition accepted (env : Env) (g : GroupFields) : Prop :=
  inArray (payCodeSet env) (g_PAY_CODE g) = true ∧
  ∃ ld1, g_LD1 g = Some ld1 ∧
         inArray VALID_FWO_PREFIXES (firstCharUpper ld1) = true.

(** The match key of the records of a group. *)
Definition matchKeyOf (g : GroupFields) : string :=
  getMatchKey (mkRecord (g_DISPLAY_EMPLOYEE g) (g_WORK_DT g) (g_LD1 g)
                        (g_PAY_CODE g) (g_EFF_RATE g) (g_LD8 g) 0 0).

(** The group as it reaches the table, and the group of its compensating
    records. *)
Definition effectiveGroup (m : gmap string (option string)) (g : GroupFields)
  : GroupFields :=
  mkGroup (g_DISPLAY_EMPLOYEE g) (g_WORK_DT g) (g_LD1 g) (g_PAY_CODE g)
          (effectiveRate m g) (g_LD8 g).

Definition compensatingGroup (g : GroupFields) : GroupFields :=
  mkGroup (g_DISPLAY_EMPLOYEE g) (g_WORK_DT g) (g_LD1 g) WORKED_ALLOCATED_REG
          (g_EFF_RATE g) (g_LD8 g).

(** The table entry of a run of group [g], and the compensating entry of a
    double-rate run. *)
Definition primaryAggregate (g : GroupFields) (rate' : Z) (run : list Record_)
  : Aggregate :=
  {| fwo := g_LD1 g; emplid := g_DISPLAY_EMPLOYEE g; workDt := g_WORK_DT g;
     payCode := g_PAY_CODE g; rate := rate'; jobCode := g_LD8 g;
     inTransit := transitHours run; hours := netHours run |}.

Definition compensatingAggregate (g : GroupFields) (rate' : Z)
    (run : list Record_) : Aggregate :=
  {| fwo := g_LD1 g; emplid := g_DISPLAY_EMPLOYEE g; workDt := g_WORK_DT g;
     payCode := WORKED_ALLOCATED_REG; rate := rate'; jobCode := g_LD8 g;
     inTransit := - transitHours run;
     hours := transitHours run - netHours run |}.

(** The group under which the records of group [g] reach the table. *)
Definition keptGroup (env : Env) (g : GroupFields) : GroupFields :=
  match unionCodeMap env with
  | Some m => effectiveGroup m g
  | None => g
  end.

(** The table holds what the kept records of a run of the current group have
    added to an empty one. *)
Definition tableOfCurrentGroup (env : Env) (st : State) : Prop :=
  ∃ run, Forall (λ r, curData st = Some (groupFields r)) run ∧
         summedRecords st = fold_left addData (keptOf env run) [].

(** Every table entry has property [Q], and every written line is the line
    of an entry that has it. *)
Definition keeps (Q : Aggregate → Prop) (st : State) : Prop :=
  Forall (λ ka, Q ka.2) (summedRecords st) ∧
  Forall (λ row, ∃ a, Q a ∧ row = rowOf a) (written st).

(** The work order starts with M or F, in either case. *)
Definition validPrefix (ld1 : string) : Prop :=
  ∃ c rest, ld1 = String c rest ∧
            (c = "M" ∨ c = "m" ∨ c = "F" ∨ c = "f")%char.

(** ** Sample data *)

Definition sampleUnionCodes : gmap string (option string) :=
  {[ "E1" := Some "IBEW" ]}.

Definition sampleEnv : Env :=
  mkEnv ["REG"; "GOLDEN_TIME"; "WORKED_ALLOCATED_REG"] (Some sampleUnionCodes).

(** A record of an employee the union-code map does not list. *)
Definition unlisted8 : Record_ :=
  mkRecord "E2" "01/02/2024" (Some "f200") "REG" 55 "JC1" 8 0.

(** A record without work order: [LD1] is null. *)
Definition noWorkOrder8 : Record_ :=
  mkRecord "E1" "01/02/2024" None "REG" 40 "JC1" 8 0.

(** Globals in which no union-code map was stored, and a host that delivers
    a batch of three records. *)
Definition noMapEnv : Env := mkEnv ["REG"; "GOLDEN_TIME"] None.

Definition sampleHost : Host :=
  mkHost ["REG"; "GOLDEN_TIME"] [("E1", Some "IBEW")]
         (Some [mkRecord "E1" "01/02/2024" (Some "M55") "REG" 40 "JC1" 8 0;
                mkRecord "E1" "01/02/2024" (Some "X123") "REG" 40 "JC1" 2 0;
                mkRecord "E1" "01/03/2024" (Some "f200") "REG" 40 "JC1" 4 0])
         None.

(** A run on 15 January 2024 in a pay period that began on 1 January. *)
Definition sampleStatus : PeriodStatus :=
  mkPeriodStatus "PGE" (mkDate 2024 1 1).

Definition sampleToday : WFSDate := mkDate 2024 1 15.

(** Three records that differ in their work order only. *)
Definition onWorkOrder (ld1 : string) : Record_ :=
  mkRecord "E1" "01/02/2024" (Some ld1) "REG" 40 "JC1" 8 0.

(** A correction that takes the 8 hours of [regular8] back, and a golden-time
    record that carries 2 hours of transit. *)
Definition regularMinus8 : Record_ :=
  mkRecord "E1" "01/02/2024" (Some "M55") "REG" 40 "JC1" (-8) 0.

Definition goldenWithTransit : Record_ :=
  mkRecord "E1" "01/02/2024" (Some "M55") "GOLDEN_TIME" 40 "JC1" 8 2.

(** A pay-code set that leaves WORKED_ALLOCATED_REG out. *)
Definition goldenOnlyEnv : Env :=
  mkEnv ["GOLDEN_TIME"] (Some sampleUnionCodes).

Definition regular8 : Record_ :=
  mkRecord "E1" "01/02/2024" (Some "M55") "REG" 40 "JC1" 8 0.

Definition regularMinus3 : Record_ :=
  mkRecord "E1" "01/02/2024" (Some "M55") "REG" 40 "JC1" (-3) 0.

Definition golden8 : Record_ :=
  mkRecord "E1" "01/02/2024" (Some "M55") "GOLDEN_TIME" 40 "JC1" 8 0.

(** ** Further quantities *)

(** The globals as [main] stores them (lines 338-339). *)
Definition globalsOf (h : Host) : Env :=
  mkEnv (h_payCodes h) (Some (buildUnionCodeMap (h_employees h))).

(** The record has an exported pay code and no work order. *)
Definition lacksWorkOrder (payCodes : list string) (r : Record_) : bool :=
  inArray payCodes (PAY_CODE r) && bool_decide (LD1 r = None).

(** The record is left out by the filter. *)
Definition drops (env : Env) (r : Record_) : bool :=
  match screen env r with Drop => true | _ => false end.

(** A batch cut into its maximal runs of records with equal group fields. *)
Fixpoint groupRuns (l : list Record_) : list (list Record_) :=
  match l with
  | [] => []
  | r :: l' =>
      match groupRuns l' with
      | (r' :: run) :: runs =>
          if decide (groupFields r = groupFields r')
          then (r :: r' :: run) :: runs
          else [r] :: (r' :: run) :: runs
      | _ => [[r]]
      end
  end.

(** A list of runs in which every run is a non-empty run of one group and
    ends where the group changes. *)
Fixpoint chained (runs : list (list Record_)) : Prop :=
  match runs with
  | [] => True
  | run :: runs' =>
      run ≠ [] ∧ (∃ g, Forall (λ r, groupFields r = g) run) ∧
      boundary run (concat runs') ∧ chained runs'
  end.

(** The lines of one run: its kept records summed into an empty table, and
    the table written. *)
Definition summarise (env : Env) (run : list Record_) : list Row :=
  writeData (fold_left addData (keptOf env run) []).

(** Two table entries agree on everything but hours and transit. *)
Definition sameIdentity (a a' : Aggregate) : Prop :=
  fwo a' = fwo a ∧ emplid a' = emplid a ∧ workDt a' = workDt a ∧
  payCode a' = payCode a ∧ rate a' = rate a ∧ jobCode a' = jobCode a.

(** The lines of the entries with hours, in table order. *)
Definition nonZeroRows (t : LookupTable) : list Row :=
  rowOf <$> filter (λ a, hours a ≠ 0) t.*2.



(** A host whose batch holds a record without work order. *)
Definition workOrderHost : Host :=
  mkHost ["REG"; "GOLDEN_TIME"] [("E1", Some "IBEW")]
         (Some [regular8; noWorkOrder8; unlisted8]) None.

(** A host that asks for an abort when the third record comes up. *)
Definition abortingHost : Host :=
  mkHost ["REG"; "GOLDEN_TIME"] [("E1", Some "IBEW")]
         (Some [golden8; regular8; regularMinus3; unlisted8]) (Some 2%nat).

(** * The pipeline over JavaScript numbers

    The script's numbers are binary64 values: sums round, [==] and [!=]
    follow IEEE 754, and a number joined to a string is printed in decimal.
    A property read goes through the prototype chain of the object. The
    module repeats the pipeline with these in place, for the statements that
    depend on them. *)

Module Binary64.
Import Stdlib.Floats.Floats.

(** ** Records *)

Record Record_ := mkRecord {
  DISPLAY_EMPLOYEE : string;
  WORK_DT : string;
  LD1 : option string;
  PAY_CODE : string;
  EFF_RATE : float;
  LD8 : string;
  HOURS : float;
  UNIT9 : float
}.

(** The values of [GROUP_FIELDS], in the order of that array. *)
Record GroupFields := mkGroup {
  g_DISPLAY_EMPLOYEE : string;
  g_WORK_DT : string;
  g_LD1 : option string;
  g_PAY_CODE : string;
  g_EFF_RATE : float;
  g_LD8 : string
}.

Definition groupFields (r : Record_) : GroupFields :=
  mkGroup (DISPLAY_EMPLOYEE r) (WORK_DT r) (LD1 r) (PAY_CODE r) (EFF_RATE r) (LD8 r).

(** One entry of the summarising table ([initData] in [addData]). *)
Record Aggregate := mkAggregate {
  fwo : option string;
  emplid : string;
  workDt : string;
  payCode : string;
  rate : float;
  jobCode : string;
  inTransit : float;
  hours : float
}.

(** ** Number to text *)

(** The order of [s × 10^q] and [x × 2^e], for integers [s], [x] and
    exponents of either sign. *)
Definition compareScaled (s q x e : Z) : comparison :=
  Z.compare (s * 10 ^ Z.max q 0 * 2 ^ Z.max (- e) 0)
            (x * 2 ^ Z.max e 0 * 10 ^ Z.max (- q) 0).

(** The integer part of [m × 2^e / 10^q]. *)
Definition scaledFloor (m e q : Z) : Z :=
  (m * 2 ^ Z.max e 0 * 10 ^ Z.max (- q) 0)
  / (2 ^ Z.max (- e) 0 * 10 ^ Z.max q 0).

(** The [n] with [10^(n-1) ≤ m × 2^e < 10^n], searched upwards from [n]. *)
Fixpoint decimalExponentFrom (fuel : nat) (n m e : Z) : Z :=
  match fuel with
  | O => n
  | S fuel' =>
      match compareScaled 1 n m e with
      | Gt => n
      | _ => decimalExponentFrom fuel' (n + 1) m e
      end
  end.

Definition decimalExponent (m e : Z) : Z :=
  decimalExponentFrom 8 ((Z.log2 m + e) * 30103 / 100000 - 1) m e.

(** Does [s × 10^q] read back as the number [m × 2^e]: it lies between the
    midpoints to the neighbouring numbers, which belong to the number when
    its mantissa is even. *)
Definition readsBack (m e s q : Z) : bool :=
  let below := if ((m =? 2 ^ 52) && (-1074 <? e))%Z then 4 * m - 1 else 4 * m - 2 in
  let above := 4 * m + 2 in
  match compareScaled s q below (e - 2), compareScaled s q above (e - 2) with
  | Gt, Lt => true
  | Eq, Lt | Gt, Eq => Z.even m
  | _, _ => false
  end.

(** The shortest digits [s] and exponent [n] with [s × 10^(n-k)] reading back
    as [m × 2^e], [k] the number of digits of [s]; among the candidates of
    one length the one closest to the number. *)
Fixpoint shortestFrom (fuel : nat) (k n m e : Z) : Z * Z :=
  let q := n - k in
  let lo := scaledFloor m e q in
  let hi := lo + 1 in
  let pick (s : Z) := if (s =? 10 ^ k)%Z then (s / 10, n + 1) else (s, n) in
  match fuel with
  | O => (lo, n)
  | S fuel' =>
      match readsBack m e lo q, readsBack m e hi q with
      | true, true =>
          match compareScaled (lo + hi) q (2 * m) e with
          | Gt => pick lo
          | Lt => pick hi
          | Eq => if Z.even lo then pick lo else pick hi
          end
      | true, false => pick lo
      | false, true => pick hi
      | false, false => shortestFrom fuel' (k + 1) n m e
      end
  end.

Definition shortest (m e : Z) : Z * Z :=
  shortestFrom 17 1 (decimalExponent m e) m e.

Fixpoint zeros (n : nat) : string :=
  match n with O => "" | S n' => "0" +:+ zeros n' end.

(** The text of the positive number with digits [digits] and decimal
    exponent [n], after ECMAScript's Number-to-String. *)
Definition layout (digits : string) (n : Z) : string :=
  let k := Z.of_nat (String.length digits) in
  if ((k <=? n) && (n <=? 21))%Z then digits +:+ zeros (Z.to_nat (n - k))
  else if ((0 <? n) && (n <=? 21))%Z then
    substring 0 (Z.to_nat n) digits +:+ "." +:+
    substring (Z.to_nat n) (Z.to_nat (k - n)) digits
  else if ((-6 <? n) && (n <=? 0))%Z then
    "0." +:+ zeros (Z.to_nat (- n)) +:+ digits
  else
    let exponent := (if (0 <=? n - 1)%Z then "+" else "-") +:+ showZ (Z.abs (n - 1)) in
    if (k =? 1)%Z then digits +:+ "e" +:+ exponent
    else substring 0 1 digits +:+ "." +:+
         substring 1 (Z.to_nat (k - 1)) digits +:+ "e" +:+ exponent.

(** The text JavaScript gives a number when it is joined to a string. *)
Definition showNumber (x : float) : string :=
  match Prim2SF x with
  | S754_nan => "NaN"
  | S754_zero _ => "0"
  | S754_infinity s => if s then "-Infinity" else "Infinity"
  | S754_finite s m e =>
      let '(digits, n) := shortest (Z.pos m) e in
      (if s then "-" else "") +:+ layout (showZ digits) n
  end.

(** ** WorkActualsData *)

(** Modelled from the spec: the host's [LookupTable], which is not part of the
    script; a keyed table whose [getKeyArray] lists the keys in the order of
    their first [set]. *)
Definition LookupTable := list (string * Aggregate).

Fixpoint lt_get (k : string) (t : LookupTable) : option Aggregate :=
  match t with
  | [] => None
  | (k', a) :: t' => if decide (k' = k) then Some a else lt_get k t'
  end.

Definition lt_containsKey (k : string) (t : LookupTable) : bool :=
  bool_decide (is_Some (lt_get k t)).

Fixpoint lt_alter (f : Aggregate → Aggregate) (k : string) (t : LookupTable)
  : LookupTable :=
  match t with
  | [] => []
  | (k', a) :: t' =>
      if decide (k' = k) then (k', f a) :: t' else (k', a) :: lt_alter f k t'
  end.

Definition lt_set (k : string) (a : Aggregate) (t : LookupTable) : LookupTable :=
  if lt_containsKey k t then lt_alter (λ _, a) k t else (t ++ [(k, a)])%list.

Definition lt_getKeyArray (t : LookupTable) : list string := t.*1.

(** [WorkActualsData_getMatchKey]: the rate enters the key as its text. *)
Definition getMatchKey (r : Record_) : string :=
  "|" +:+ DISPLAY_EMPLOYEE r +:+ "|" +:+ WORK_DT r +:+ "|"
      +:+ showNullable (LD1 r) +:+ "|" +:+ PAY_CODE r +:+ "|"
      +:+ showNumber (EFF_RATE r) +:+ "|" +:+ LD8 r +:+ "|".

(** The entry created for a key that is not in the table yet.
    [convertWDate] is host code; the date is kept as the record has it. *)
Definition initData (r : Record_) : Aggregate :=
  {| fwo := LD1 r;
     emplid := DISPLAY_EMPLOYEE r;
     workDt := WORK_DT r;
     payCode := PAY_CODE r;
     rate := if inArray DOUBLE_RATE_PAY_CODES (PAY_CODE r)
             then (2 * EFF_RATE r)%float else EFF_RATE r;
     jobCode := LD8 r;
     inTransit := 0%float;
     hours := 0%float |}.

(** [hours += d] and [inTransit += d] on an entry. *)
Definition addHours (d : float) (a : Aggregate) : Aggregate :=
  {| fwo := fwo a; emplid := emplid a; workDt := workDt a; payCode := payCode a;
     rate := rate a; jobCode := jobCode a; inTransit := inTransit a;
     hours := (hours a + d)%float |}.

Definition addTransit (d : float) (a : Aggregate) : Aggregate :=
  {| fwo := fwo a; emplid := emplid a; workDt := workDt a; payCode := payCode a;
     rate := rate a; jobCode := jobCode a; inTransit := (inTransit a + d)%float;
     hours := hours a |}.

(** Lines 105-122 of [addData]: create the entry if needed, then add the
    record's hours less transit, and its transit. *)
Definition accumulate (t : LookupTable) (r : Record_) : LookupTable :=
  let matchKey := getMatchKey r in
  let t1 := if lt_containsKey matchKey t then t
            else lt_set matchKey (initData r) t in
  let t2 := lt_alter (addHours (HOURS r - UNIT9 r)%float) matchKey t1 in
  lt_alter (addTransit (UNIT9 r)) matchKey t2.

(** Lines 127-133 of [addData]: the record that takes the hours back out of
    the regular bucket. *)
Definition adjRecord (r : Record_) : Record_ :=
  {| DISPLAY_EMPLOYEE := DISPLAY_EMPLOYEE r;
     WORK_DT := WORK_DT r;
     LD1 := LD1 r;
     PAY_CODE := WORKED_ALLOCATED_REG;
     EFF_RATE := EFF_RATE r;
     LD8 := LD8 r;
     HOURS := (-1 * (HOURS r - UNIT9 r))%float;
     UNIT9 := (-1 * UNIT9 r)%float |}.

(** How many more times [addData] can call itself on a record. *)
Definition spawns (r : Record_) : nat :=
  if inArray DOUBLE_RATE_PAY_CODES (PAY_CODE r) then 1%nat else 0%nat.

(** [WorkActualsData_addData], with the recursion of the source. *)
Equations? addData (t : LookupTable) (r : Record_) : LookupTable
  by wf (spawns r) lt :=
addData t r with Equations.Prop.Logic.inspect (inArray DOUBLE_RATE_PAY_CODES (PAY_CODE r)) := {
  | exist _ true Hd => addData (accumulate t r) (adjRecord r)
  | exist _ false Hd => accumulate t r }.
Proof. unfold spawns. rewrite Hd. simpl. lia. Qed.

(** One written line: the values appended by [writeData], in file order.
    Formatting numbers and the date is left to the host's writer. *)
Record Row := mkRow {
  row_HOURS : float;
  row_FWO : option string;
  row_EMPLID : string;
  row_WORK_DATE : string;
  row_PAY_CODE : string;
  row_RATE : float;
  row_JOB_CODE : string;
  row_INTRANSIT : float
}.

Definition rowOf (a : Aggregate) : Row :=
  mkRow (hours a) (fwo a) (emplid a) (workDt a) (payCode a) (rate a)
        (jobCode a) (inTransit a).

(** [WorkActualsData_writeData]: the lines handed to the writer; an entry is
    passed over when [hours == 0] holds of its hours. *)
Definition writeData (t : LookupTable) : list Row :=
  flat_map (λ k, match lt_get k t with
                 | Some a => if PrimFloat.eqb (hours a) 0 then [] else [rowOf a]
                 | None => []
                 end)
           (lt_getKeyArray t).

(** ** The union-code map *)

(** What a property read can give: undefined, null, a text, or an object or
    function that comes with the language. *)
Inductive Value :=
  | undefined
  | null
  | text (s : string)
  | builtin (name : string).

(** The properties that an object made by [{}] inherits from
    [Object.prototype] (ECMAScript, with the additions of Annex B). *)
Definition objectPrototype : list string :=
  ["constructor"; "toString"; "toLocaleString"; "valueOf"; "hasOwnProperty";
   "isPrototypeOf"; "propertyIsEnumerable"; "__proto__"; "__defineGetter__";
   "__defineSetter__"; "__lookupGetter__"; "__lookupSetter__"].

(** The object used as map: its own properties, each a union code or null,
    and whether it still has [Object.prototype] as its prototype. *)
Record MapObject := mkMapObject {
  own : gmap string (option string);
  hasPrototype : bool
}.

(** [{}]. *)
Definition emptyObject : MapObject := mkMapObject ∅ true.

(** [map[key] = value]. Under the name [__proto__] an object with prototype
    has the inherited setter: a null cuts the prototype off, a text is
    ignored. *)
Definition setProperty (m : MapObject) (key : string) (value : option string)
  : MapObject :=
  if bool_decide (key = "__proto__") && hasPrototype m then
    match value with
    | None => mkMapObject (own m) false
    | Some _ => m
    end
  else mkMapObject (<[key := value]> (own m)) (hasPrototype m).

(** [map[key]]: the value stored under the key, else what the object
    inherits under that name, else undefined. *)
Definition getProperty (m : MapObject) (key : string) : Value :=
  match own m !! key with
  | Some (Some s) => text s
  | Some None => null
  | None =>
      if hasPrototype m && inArray objectPrototype key then builtin key
      else undefined
  end.

(** [buildUnionCodeMap], from the rows of the employee list (employee and
    union code). *)
Definition buildUnionCodeMap (results : list (string * option string))
  : MapObject :=
  fold_left (λ returnMap res, setProperty returnMap res.1 res.2)
            results emptyObject.

(** Modelled from the spec: [isBlank] of the host's JS_UTIL library, which is
    not part of the script; per the comment above [isUnionCodeNull] it holds
    of a null, undefined or empty value. *)
Definition isBlank (v : Value) : bool :=
  match v with
  | undefined | null => true
  | text s => bool_decide (s = "")
  | builtin _ => false
  end.

(** The globals assigned by [main]: the pay codes to export and the map from
    employee to union code ([None] when no map was built). *)
Record Env := mkEnv {
  payCodeSet : list string;
  unionCodeMap : option MapObject
}.

(** [isUnionCodeNull]. *)
Definition isUnionCodeNull (env : Env) (display_employee : string) : Exn + bool :=
  match unionCodeMap env with
  | None => inl "Union Code mapping is not available"
  | Some m => inr (isBlank (getProperty m display_employee))
  end.

(** ** The per-record pipeline of [processExportRecords] *)

(** [curData] is [None] while all its fields are null. *)
Record State := mkState {
  curData : option GroupFields;
  summedRecords : LookupTable;
  written : list Row;
  rolledBack : list Record_;
  recordCount : nat
}.

Definition initState : State := mkState None [] [] [] 0%nat.

(** No group field of the record is [!=] to the one held in [c]; the rates
    are compared as numbers. *)
Definition sameGroup (r : Record_) (c : GroupFields) : bool :=
  bool_decide (DISPLAY_EMPLOYEE r = g_DISPLAY_EMPLOYEE c)
  && bool_decide (WORK_DT r = g_WORK_DT c)
  && bool_decide (LD1 r = g_LD1 c)
  && bool_decide (PAY_CODE r = g_PAY_CODE c)
  && PrimFloat.eqb (EFF_RATE r) (g_EFF_RATE c)
  && bool_decide (LD8 r = g_LD8 c).

(** Lines 213-219: does the record differ from [curData] in a group field. *)
Definition differs (c : option GroupFields) (r : Record_) : bool :=
  match c with
  | None => true
  | Some c => negb (sameGroup r c)
  end.

Definition groupingChange (st : State) (r : Record_) : bool :=
  differs (curData st) r.

(** Lines 220-225: on a change, write the table out and start a new one. *)
Definition flushGroup (st : State) (r : Record_) : State :=
  if groupingChange st r then
    {| curData := Some (groupFields r);
       summedRecords := [];
       written := (written st ++ writeData (summedRecords st))%list;
       rolledBack := rolledBack st;
       recordCount := recordCount st |}
  else st.

(** [Record.eff_rate = 0]. *)
Definition zeroRate (r : Record_) : Record_ :=
  {| DISPLAY_EMPLOYEE := DISPLAY_EMPLOYEE r; WORK_DT := WORK_DT r; LD1 := LD1 r;
     PAY_CODE := PAY_CODE r; EFF_RATE := 0%float; LD8 := LD8 r; HOURS := HOURS r;
     UNIT9 := UNIT9 r |}.

(** What lines 227-239 decide about a record: leave it out ([continue]),
    fail, or hand it, rate possibly zeroed, to the table. *)
Inductive Screened :=
  | Drop
  | Raise (e : Exn)
  | Keep (r : Record_).

Definition screen (env : Env) (r : Record_) : Screened :=
  if negb (inArray (payCodeSet env) (PAY_CODE r)) then Drop else
  match LD1 r with
  | None => Raise "TypeError: cannot call method substr of null"
  | Some ld1 =>
      let prefix := firstCharUpper ld1 in
      if negb (inArray VALID_FWO_PREFIXES prefix) then Drop else
      match isUnionCodeNull env (DISPLAY_EMPLOYEE r) with
      | inl e => Raise e
      | inr b => Keep (if b then zeroRate r else r)
      end
  end.

Inductive BodyResult :=
  | Skipped
  | Added
  | Threw (e : Exn).

(** The [try] block of lines 209-243. *)
Definition tryBody (env : Env) (st : State) (r : Record_) : State * BodyResult :=
  let st1 := flushGroup st r in
  match screen env r with
  | Drop => (st1, Skipped)
  | Raise e => (st1, Threw e)
  | Keep r' =>
      ({| curData := curData st1;
          summedRecords := addData (summedRecords st1) r';
          written := written st1;
          rolledBack := rolledBack st1;
          recordCount := S (recordCount st1) |}, Added)
  end.

(** One turn of the loop: the [try] block and its [catch]. *)
Definition step (env : Env) (st : State) (r : Record_) : State :=
  match tryBody env st r with
  | (st', Threw _) =>
      {| curData := curData st';
         summedRecords := summedRecords st';
         written := written st';
         rolledBack := (rolledBack st' ++ [r])%list;
         recordCount := recordCount st' |}
  | (st', _) => st'
  end.

Definition processLoop (env : Env) (st : State) (exportRecords : list Record_)
  : State :=
  fold_left (step env) exportRecords st.

(** Line 252: the table left after the last record is written as well. *)
Definition finish (st : State) : State :=
  {| curData := curData st;
     summedRecords := summedRecords st;
     written := (written st ++ writeData (summedRecords st))%list;
     rolledBack := rolledBack st;
     recordCount := recordCount st |}.

(** [processExportRecords] on a batch that is delivered in full. *)
Definition processExportRecords (env : Env) (exportRecords : list Record_)
  : State :=
  finish (processLoop env initState exportRecords).

(** ** Quantities the statements speak about *)

(** What one record does to the entry of its key. *)
Definition bump (r : Record_) (a : Aggregate) : Aggregate :=
  addTransit (UNIT9 r) (addHours (HOURS r - UNIT9 r)%float a).

(** Hours less transit, and transit, as the table adds them up over a run of
    records: from 0, one record after the other. *)
Definition netHoursFrom (h : float) (run : list Record_) : float :=
  fold_left (λ h r, h + (HOURS r - UNIT9 r))%float run h.

Definition transitHoursFrom (t : float) (run : list Record_) : float :=
  fold_left (λ t r, t + UNIT9 r)%float run t.

Definition netHours (run : list Record_) : float := netHoursFrom 0 run.

Definition transitHours (run : list Record_) : float := transitHoursFrom 0 run.

(** The state with earlier output put in front of its own. *)
Definition shift (w : list Row) (rb : list Record_) (n : nat) (st : State)
  : State :=
  {| curData := curData st;
     summedRecords := summedRecords st;
     written := (w ++ written st)%list;
     rolledBack := (rb ++ rolledBack st)%list;
     recordCount := (n + recordCount st)%nat |}.

(** The group fields held in [curData] after the records [l] were read. *)
Definition currentGroupFrom (c : option GroupFields) (l : list Record_)
  : option GroupFields :=
  fold_left (λ c r, if differs c r then Some (groupFields r) else c) l c.

Definition currentGroup (l : list Record_) : option GroupFields :=
  currentGroupFrom None l.

(** The record [r], read after the records [pre], starts a group; and the
    group that [r] started ends where the records [post] begin. *)
Definition startsGroup (pre : list Record_) (r : Record_) : Prop :=
  differs (currentGroup pre) r = true.

Definition endsGroup (r : Record_) (post : list Record_) : Prop :=
  match post with
  | [] => True
  | r' :: _ => sameGroup r' (groupFields r) = false
  end.

(** The union-code lookup finds nothing for the employee. *)
Definition unionCodeBlank (m : MapObject) (e : string) : bool :=
  isBlank (getProperty m e).

(** The record as line 238 leaves it, given the union-code map, and its
    rate. *)
Definition overridden (m : MapObject) (r : Record_) : Record_ :=
  if unionCodeBlank m (DISPLAY_EMPLOYEE r) then zeroRate r else r.

Definition effectiveRate (m : MapObject) (r : Record_) : float :=
  if unionCodeBlank m (DISPLAY_EMPLOYEE r) then 0%float else EFF_RATE r.

(** The record filter passes the record: its pay code is exported and its
    work order starts with a valid prefix. *)
Definition accepted (env : Env) (r : Record_) : Prop :=
  inArray (payCodeSet env) (PAY_CODE r) = true ∧
  ∃ ld1, LD1 r = Some ld1 ∧
         inArray VALID_FWO_PREFIXES (firstCharUpper ld1) = true.

(** The table entry of a run that [r] started, under the given pay code and
    rate: the hours and the transit are those added up over [run]. *)
Definition runEntry (r : Record_) (payCode' : string) (rate' : float)
    (run : list Record_) : Aggregate :=
  {| fwo := LD1 r; emplid := DISPLAY_EMPLOYEE r; workDt := WORK_DT r;
     payCode := payCode'; rate := rate'; jobCode := LD8 r;
     inTransit := transitHours run; hours := netHours run |}.

(** The lines of the given entries, those with [hours == 0] left out. *)
Definition rowsOf (entries : list Aggregate) : list Row :=
  flat_map (λ a, if PrimFloat.eqb (hours a) 0 then [] else [rowOf a]) entries.

(** The hours of the written lines, added up in file order. *)
Definition writtenHours (rows : list Row) : float :=
  fold_left (λ h row, h + row_HOURS row)%float rows 0%float.

(** Every table entry has property [Q], and every written line is the line
    of an entry that has it. *)
Definition keeps (Q : Aggregate → Prop) (st : State) : Prop :=
  Forall (λ ka, Q ka.2) (summedRecords st) ∧
  Forall (λ row, ∃ a, Q a ∧ row = rowOf a) (written st).

(** ** Sample data *)

Definition sampleUnionCodes : MapObject :=
  buildUnionCodeMap [("E1", Some "IBEW")].

Definition sampleEnv : Env :=
  mkEnv ["REG"; "GOLDEN_TIME"; "WORKED_ALLOCATED_REG"] (Some sampleUnionCodes).

(** A tenth, two tenths and three tenths of an hour. *)
Definition tenth : float := (1 / 10)%float.

Definition twoTenths : float := (2 / 10)%float.

Definition threeTenths : float := (3 / 10)%float.

Definition regular (h : float) : Record_ :=
  mkRecord "E1" "01/02/2024" (Some "M55") "REG" 40 "JC1" h 0.

Definition golden (h t : float) : Record_ :=
  mkRecord "E1" "01/02/2024" (Some "M55") "GOLDEN_TIME" 40 "JC1" h t.

(** A record of an employee the union-code map does not list, and one of an
    employee it does not list either and whose number is the name of a
    property that every object inherits. *)
Definition unlisted8 : Record_ :=
  mkRecord "E2" "01/02/2024" (Some "f200") "REG" 55 "JC1" 8 0.

Definition inheritedName8 : Record_ :=
  mkRecord "constructor" "01/02/2024" (Some "f200") "REG" 55 "JC1" 8 0.

(** Two records whose rates are the two zeros. *)
Definition zeroRated : Record_ :=
  mkRecord "E1" "01/02/2024" (Some "M55") "REG" 0 "JC1" 8 0.

Definition minusZeroRated : Record_ :=
  mkRecord "E1" "01/02/2024" (Some "M55") "REG" (-0) "JC1" 4 0.

End Binary64.

(** * The pipeline over exact numbers: its properties *)

(** ** Facts about the table *)

Lemma addData_eq t r :
  addData t r =
  if inArray DOUBLE_RATE_PAY_CODES (PAY_CODE r)
  then accumulate (accumulate t r) (adjRecord r)
  else accumulate t r.
Proof.
  funelim (addData t r).
  - rewrite H, Hd. reflexivity.
  - rewrite Hd. reflexivity.
Qed.

Lemma lt_containsKey_cons_ne k k' a t :
  k' ≠ k → lt_containsKey k ((k', a) :: t) = lt_containsKey k t.
Proof.
  intros Hne. unfold lt_containsKey. simpl.
  destruct (decide (k' = k)); [done | reflexivity].
Qed.

Lemma lt_containsKey_cons_eq k a t : lt_containsKey k ((k, a) :: t) = true.
Proof.
  unfold lt_containsKey. simpl. rewrite decide_True by done.
  apply bool_decide_eq_true. eauto.
Qed.

Lemma accumulate_nil r : accumulate [] r = [(getMatchKey r, bump r (initData r))].
Proof.
  unfold accumulate, lt_set. simpl.
  rewrite decide_True by done. simpl. by rewrite decide_True by done.
Qed.

Lemma accumulate_hit k a t r :
  getMatchKey r = k → accumulate ((k, a) :: t) r = (k, bump r a) :: t.
Proof.
  intros <-. unfold accumulate. rewrite lt_containsKey_cons_eq. simpl.
  rewrite decide_True by done. simpl. by rewrite decide_True by done.
Qed.

Lemma accumulate_miss k a t r :
  k ≠ getMatchKey r → accumulate ((k, a) :: t) r = (k, a) :: accumulate t r.
Proof.
  intros Hne. unfold accumulate. rewrite lt_containsKey_cons_ne by done.
  destruct (lt_containsKey (getMatchKey r) t) eqn:Hc.
  - simpl. rewrite decide_False by done. simpl. by rewrite decide_False by done.
  - unfold lt_set. rewrite lt_containsKey_cons_ne by done. rewrite Hc. simpl.
    rewrite decide_False by done. simpl. by rewrite decide_False by done.
Qed.

Lemma lt_get_accumulate k t r :
  lt_get k (accumulate t r) =
  if decide (k = getMatchKey r)
  then Some (bump r (default (initData r) (lt_get k t)))
  else lt_get k t.
Proof.
  induction t as [|[k' a] t IH].
  - rewrite accumulate_nil. simpl.
    destruct (decide (getMatchKey r = k)) as [<-|Hne].
    + by rewrite decide_True by done.
    + by rewrite decide_False by done.
  - destruct (decide (k' = getMatchKey r)) as [->|Hne].
    + rewrite accumulate_hit by done. simpl.
      destruct (decide (getMatchKey r = k)) as [<-|Hne].
      * by rewrite decide_True by done.
      * by rewrite decide_False by done.
    + rewrite accumulate_miss by done. simpl.
      destruct (decide (k' = k)) as [->|Hne'].
      * by rewrite decide_False by done.
      * apply IH.
Qed.

(** Every entry of the table keeps a property that the fresh entry has and
    that adding hours and transit does not disturb. *)
Lemma accumulate_Forall (Q : Aggregate → Prop) t r :
  (∀ d a, Q a → Q (addHours d a)) →
  (∀ d a, Q a → Q (addTransit d a)) →
  Q (initData r) →
  Forall (λ ka, Q ka.2) t →
  Forall (λ ka, Q ka.2) (accumulate t r).
Proof.
  intros Hh Ht Hi. induction t as [|[k a] t IH]; intros HF.
  - rewrite accumulate_nil. constructor; [|constructor].
    simpl. unfold bump. by apply Ht, Hh.
  - inversion HF as [|? ? Ha HF']; subst.
    destruct (decide (k = getMatchKey r)) as [->|Hne].
    + rewrite accumulate_hit by done. constructor; [|done].
      simpl. unfold bump. by apply Ht, Hh.
    + rewrite accumulate_miss by done. constructor; [done|]. by apply IH.
Qed.

Lemma writeData_rows t row :
  row ∈ writeData t → ∃ ka, ka ∈ t ∧ row = rowOf ka.2.
Proof.
  unfold writeData, lt_getKeyArray. intros Hin.
  apply list_elem_of_In, in_flat_map in Hin as (k & _ & Hrow).
  destruct (lt_get k t) as [a|] eqn:Hget; [|by destruct Hrow].
  destruct (decide (hours a = 0)); [by destruct Hrow|].
  destruct Hrow as [<-|[]].
  exists (k, a). split; [|done].
  clear -Hget. induction t as [|[k' a'] t IH]; [done|].
  simpl in Hget. destruct (decide (k' = k)) as [->|].
  - injection Hget as ->. left.
  - right. by apply IH.
Qed.

Lemma WORKED_ALLOCATED_REG_not_double :
  inArray DOUBLE_RATE_PAY_CODES WORKED_ALLOCATED_REG = false.
Proof. reflexivity. Qed.

Lemma string_app_cons (c : ascii) (s t : string) :
  String c s +:+ t = String c (s +:+ t).
Proof. reflexivity. Qed.

Lemma string_length_app (s t : string) :
  String.length (s +:+ t) = (String.length s + String.length t)%nat.
Proof.
  induction s as [|c s IH]; [reflexivity|].
  rewrite string_app_cons. simpl. by rewrite IH.
Qed.

Lemma string_app_inv_tail (s1 s2 t : string) :
  s1 +:+ t = s2 +:+ t → s1 = s2.
Proof.
  revert s2. induction s1 as [|c s1 IH]; intros [|d s2] H.
  - reflexivity.
  - apply (f_equal String.length) in H.
    rewrite !string_length_app in H. simpl in H. lia.
  - apply (f_equal String.length) in H.
    rewrite !string_length_app in H. simpl in H. lia.
  - rewrite !string_app_cons in H. injection H as -> H. f_equal. by apply IH.
Qed.

(** Two match keys that agree on every group field but the pay code differ
    when the pay codes do. *)
Lemma getMatchKey_adjRecord_ne r :
  inArray DOUBLE_RATE_PAY_CODES (PAY_CODE r) = true →
  getMatchKey r ≠ getMatchKey (adjRecord r).
Proof.
  intros Hd Heq. unfold getMatchKey in Heq. simpl in Heq.
  do 7 apply (inj (String.app _)) in Heq.
  apply string_app_inv_tail in Heq.
  rewrite Heq in Hd. by rewrite WORKED_ALLOCATED_REG_not_double in Hd.
Qed.

(** ** Facts about the loop *)

Lemma processLoop_cons env st r l :
  processLoop env st (r :: l) = processLoop env (step env st r) l.
Proof. reflexivity. Qed.

Lemma processLoop_app env st l1 l2 :
  processLoop env st (l1 ++ l2) = processLoop env (processLoop env st l1) l2.
Proof. apply fold_left_app. Qed.

Lemma curData_step env st r : curData (step env st r) = Some (groupFields r).
Proof.
  unfold step, tryBody, flushGroup, groupingChange.
  destruct (bool_decide (curData st = Some (groupFields r))) eqn:Hc;
    destruct (screen env r); simpl; try reflexivity;
    by apply bool_decide_eq_true in Hc.
Qed.

Lemma curData_processLoop env st l g :
  lastGroup l = Some g → curData (processLoop env st l) = Some g.
Proof.
  unfold lastGroup. destruct l as [|r l _] using rev_ind; [done|].
  rewrite last_snoc. simpl. intros [= <-].
  rewrite processLoop_app. simpl. apply curData_step.
Qed.

Lemma step_shift env w rb n st r :
  step env (shift w rb n st) r = shift w rb n (step env st r).
Proof.
  unfold step, tryBody, flushGroup, groupingChange, shift. simpl.
  destruct (bool_decide (curData st = Some (groupFields r)));
    destruct (screen env r); simpl; f_equal;
    rewrite <- ?app_assoc; try reflexivity; lia.
Qed.

Lemma processLoop_shift env w rb n st l :
  processLoop env (shift w rb n st) l = shift w rb n (processLoop env st l).
Proof.
  revert st. induction l as [|r l IH]; intros st; [reflexivity|].
  simpl. rewrite step_shift. apply IH.
Qed.

Lemma finish_shift w rb n st :
  finish (shift w rb n st) = shift w rb n (finish st).
Proof. unfold finish, shift. simpl. f_equal. by rewrite app_assoc. Qed.

(** A record of a new group: what the table held is written, and the loop
    goes on as if it started at this record. *)
Lemma step_new_group env st r :
  curData st ≠ Some (groupFields r) →
  step env st r =
  shift (written st ++ writeData (summedRecords st)) (rolledBack st)
        (recordCount st) (step env initState r).
Proof.
  intros Hne. unfold step, tryBody, flushGroup, groupingChange, shift.
  rewrite (bool_decide_eq_false_2 _ Hne). simpl.
  destruct (screen env r); simpl; f_equal;
    rewrite ?app_nil_r; try reflexivity; lia.
Qed.

Lemma processLoop_new_group env st r l :
  curData st ≠ Some (groupFields r) →
  processLoop env st (r :: l) =
  shift (written st ++ writeData (summedRecords st)) (rolledBack st)
        (recordCount st) (processLoop env initState (r :: l)).
Proof.
  intros Hne. simpl. rewrite step_new_group by done.
  apply processLoop_shift.
Qed.

Lemma lastGroup_cases (l : list Record_) :
  l = [] ∨ ∃ g, lastGroup l = Some g.
Proof.
  destruct l as [|r l _] using rev_ind; [by left|right].
  unfold lastGroup. rewrite last_snoc. eauto.
Qed.

Lemma boundary_curData env l1 r l2 :
  boundary l1 (r :: l2) →
  curData (processLoop env initState l1) ≠ Some (groupFields r).
Proof.
  intros Hb. destruct (lastGroup_cases l1) as [->|[g Hg]]; [done|].
  rewrite (curData_processLoop _ _ _ _ Hg). intros Heq.
  by apply (Hb g Hg).
Qed.

(** A batch cut where the group changes is the two parts run one after the
    other. *)
Lemma processExportRecords_split env l1 l2 :
  boundary l1 l2 →
  written (processExportRecords env (l1 ++ l2)) =
    written (processExportRecords env l1) ++
    written (processExportRecords env l2) ∧
  rolledBack (processExportRecords env (l1 ++ l2)) =
    rolledBack (processExportRecords env l1) ++
    rolledBack (processExportRecords env l2) ∧
  recordCount (processExportRecords env (l1 ++ l2)) =
    (recordCount (processExportRecords env l1) +
     recordCount (processExportRecords env l2))%nat.
Proof.
  intros Hb. destruct l2 as [|r l2].
  - rewrite app_nil_r. simpl. rewrite !app_nil_r. repeat split. lia.
  - unfold processExportRecords. rewrite processLoop_app.
    rewrite processLoop_new_group by by apply (boundary_curData _ _ _ l2).
    rewrite finish_shift. simpl. repeat split.
Qed.

(** ** Facts about a run of one group *)

Lemma step_same_group env st r :
  curData st = Some (groupFields r) →
  step env st r =
  match screen env r with
  | Drop => st
  | Raise _ => mkState (curData st) (summedRecords st) (written st)
                       (rolledBack st ++ [r]) (recordCount st)
  | Keep r' => mkState (curData st) (addData (summedRecords st) r')
                       (written st) (rolledBack st) (S (recordCount st))
  end.
Proof.
  intros Hc. unfold step, tryBody, flushGroup, groupingChange.
  rewrite (bool_decide_eq_true_2 _ Hc). simpl.
  by destruct (screen env r).
Qed.

Lemma keptOf_cons env r l :
  keptOf env (r :: l) =
  match screen env r with
  | Keep r' => r' :: keptOf env l
  | _ => keptOf env l
  end.
Proof. unfold keptOf. simpl. by destruct (screen env r). Qed.

Lemma raisedOf_cons env r l :
  raisedOf env (r :: l) =
  match screen env r with
  | Raise _ => r :: raisedOf env l
  | _ => raisedOf env l
  end.
Proof. unfold raisedOf, raises. simpl. by destruct (screen env r). Qed.

Lemma processLoop_same_group env run : ∀ st g,
  curData st = Some g →
  Forall (λ r, groupFields r = g) run →
  processLoop env st run =
  mkState (Some g) (fold_left addData (keptOf env run) (summedRecords st))
          (written st) (rolledBack st ++ raisedOf env run)
          (recordCount st + length (keptOf env run)).
Proof.
  induction run as [|r run IH]; intros st g Hc HF.
  - simpl. rewrite app_nil_r, Nat.add_0_r. destruct st; simpl in *. by subst.
  - inversion HF as [|? ? Hr HF']; subst.
    rewrite processLoop_cons, step_same_group by done.
    rewrite keptOf_cons, raisedOf_cons.
    destruct (screen env r) as [|e|r'] eqn:Hs; simpl.
    + by apply IH.
    + rewrite (IH _ (groupFields r)) by done. simpl.
      by rewrite <- app_assoc.
    + rewrite (IH _ (groupFields r)) by done. simpl. f_equal. lia.
Qed.

Lemma step_initState env r :
  step env initState r =
  step env (mkState (Some (groupFields r)) [] [] [] 0) r.
Proof.
  unfold step, tryBody, flushGroup, groupingChange. simpl.
  rewrite bool_decide_eq_true_2 by done. simpl.
  by destruct (screen env r).
Qed.

Lemma processLoop_run env run g :
  run ≠ [] →
  Forall (λ r, groupFields r = g) run →
  processLoop env initState run =
  mkState (Some g) (fold_left addData (keptOf env run) [])
          [] (raisedOf env run) (length (keptOf env run)).
Proof.
  intros Hne HF. destruct run as [|r run]; [done|].
  assert (Hg : groupFields r = g) by by inversion HF.
  rewrite processLoop_cons, step_initState, <- processLoop_cons.
  rewrite (processLoop_same_group _ _ _ g) by (simpl; congruence || done).
  reflexivity.
Qed.

Lemma getMatchKey_group r1 r2 :
  groupFields r1 = groupFields r2 → getMatchKey r1 = getMatchKey r2.
Proof.
  destruct r1, r2. unfold groupFields, getMatchKey. simpl.
  intros [= -> -> -> -> -> ->]. reflexivity.
Qed.

Lemma groupFields_overridden m r :
  groupFields (overridden m r) =
  mkGroup (DISPLAY_EMPLOYEE r) (WORK_DT r) (LD1 r) (PAY_CODE r)
          (effectiveRate m (groupFields r)) (LD8 r).
Proof.
  unfold overridden, effectiveRate. simpl.
  by destruct (isBlank (m !! DISPLAY_EMPLOYEE r ≫= id)).
Qed.

Lemma screen_accepted env m r :
  unionCodeMap env = Some m →
  accepted env (groupFields r) →
  screen env r = Keep (overridden m r).
Proof.
  intros Hm [Hp (ld1 & Hld & Hpre)]. simpl in *.
  unfold screen, isUnionCodeNull. rewrite Hp, Hld, Hpre, Hm. reflexivity.
Qed.

Lemma keptOf_accepted env m g run :
  unionCodeMap env = Some m →
  accepted env g →
  Forall (λ r, groupFields r = g) run →
  keptOf env run = overridden m <$> run ∧ raisedOf env run = [].
Proof.
  intros Hm Ha. induction 1 as [|r run Hr HF [IH1 IH2]]; [done|].
  rewrite keptOf_cons, raisedOf_cons.
  rewrite (screen_accepted env m r) by (by rewrite ?Hr).
  rewrite IH1, IH2. done.
Qed.

Lemma netHours_cons r run :
  netHours (r :: run) = (HOURS r - UNIT9 r) + netHours run.
Proof. reflexivity. Qed.

Lemma transitHours_cons r run :
  transitHours (r :: run) = UNIT9 r + transitHours run.
Proof. reflexivity. Qed.

(** ** Folding a run into the table *)

Lemma aggregate_eq (a b : Aggregate) :
  fwo a = fwo b → emplid a = emplid b → workDt a = workDt b →
  payCode a = payCode b → rate a = rate b → jobCode a = jobCode b →
  inTransit a = inTransit b → hours a = hours b → a = b.
Proof. destruct a, b. simpl. by intros -> -> -> -> -> -> -> ->. Qed.

Ltac aggregate_fields :=
  apply aggregate_eq; simpl; try reflexivity; try lia.

Lemma bump_sums r a n tr :
  addTransit tr (addHours n (bump r a)) =
  addTransit (UNIT9 r + tr) (addHours ((HOURS r - UNIT9 r) + n) a).
Proof. aggregate_fields. Qed.

Lemma sums_zero a : addTransit 0 (addHours 0 a) = a.
Proof. aggregate_fields. Qed.

Lemma addData_plain t r :
  inArray DOUBLE_RATE_PAY_CODES (PAY_CODE r) = false →
  addData t r = accumulate t r.
Proof. intros Hd. by rewrite addData_eq, Hd. Qed.

Lemma addData_double t r :
  inArray DOUBLE_RATE_PAY_CODES (PAY_CODE r) = true →
  addData t r = accumulate (accumulate t r) (adjRecord r).
Proof. intros Hd. by rewrite addData_eq, Hd. Qed.

Lemma fold_addData_plain run : ∀ k a,
  Forall (λ r, getMatchKey r = k ∧
               inArray DOUBLE_RATE_PAY_CODES (PAY_CODE r) = false) run →
  fold_left addData run [(k, a)] =
  [(k, addTransit (transitHours run) (addHours (netHours run) a))].
Proof.
  induction run as [|r run IH]; intros k a HF.
  - simpl. by rewrite sums_zero.
  - inversion HF as [|? ? [Hk Hd] HF']; subst.
    simpl fold_left. rewrite addData_plain, accumulate_hit by done.
    rewrite IH by done. by rewrite bump_sums.
Qed.

Lemma addData_double_pair k kc a c r :
  k ≠ kc → getMatchKey r = k → getMatchKey (adjRecord r) = kc →
  inArray DOUBLE_RATE_PAY_CODES (PAY_CODE r) = true →
  addData [(k, a); (kc, c)] r = [(k, bump r a); (kc, bump (adjRecord r) c)].
Proof.
  intros Hne Hk Hkc Hd. rewrite addData_double by done.
  rewrite accumulate_hit by done.
  rewrite accumulate_miss by congruence.
  by rewrite accumulate_hit by done.
Qed.

Lemma addData_double_nil r :
  inArray DOUBLE_RATE_PAY_CODES (PAY_CODE r) = true →
  addData [] r =
  [(getMatchKey r, bump r (initData r));
   (getMatchKey (adjRecord r), bump (adjRecord r) (initData (adjRecord r)))].
Proof.
  intros Hd. rewrite addData_double by done.
  rewrite accumulate_nil.
  rewrite accumulate_miss by by apply getMatchKey_adjRecord_ne.
  by rewrite accumulate_nil.
Qed.

Lemma bump_adj_sums r c n tr :
  addTransit (- tr) (addHours (tr - n) (bump (adjRecord r) c)) =
  addTransit (- (UNIT9 r + tr))
             (addHours ((UNIT9 r + tr) - ((HOURS r - UNIT9 r) + n)) c).
Proof. aggregate_fields. Qed.

Lemma fold_addData_double run : ∀ k kc a c,
  k ≠ kc →
  Forall (λ r, getMatchKey r = k ∧ getMatchKey (adjRecord r) = kc ∧
               inArray DOUBLE_RATE_PAY_CODES (PAY_CODE r) = true) run →
  fold_left addData run [(k, a); (kc, c)] =
  [(k, addTransit (transitHours run) (addHours (netHours run) a));
   (kc, addTransit (- transitHours run)
                   (addHours (transitHours run - netHours run) c))].
Proof.
  induction run as [|r run IH]; intros k kc a c Hne HF.
  - simpl. rewrite sums_zero. do 2 f_equal. f_equal.
    aggregate_fields.
  - inversion HF as [|? ? (Hk & Hkc & Hd) HF']; subst.
    simpl fold_left. rewrite addData_double_pair by done.
    rewrite IH by done. rewrite bump_sums, bump_adj_sums.
    rewrite !netHours_cons, !transitHours_cons. reflexivity.
Qed.

(** ** The table and the lines of one run *)

Lemma getMatchKey_matchKeyOf r : getMatchKey r = matchKeyOf (groupFields r).
Proof. by destruct r. Qed.

Lemma groupFields_adjRecord r :
  groupFields (adjRecord r) = compensatingGroup (groupFields r).
Proof. reflexivity. Qed.

Lemma fold_run_plain run g :
  run ≠ [] →
  Forall (λ r, groupFields r = g) run →
  inArray DOUBLE_RATE_PAY_CODES (g_PAY_CODE g) = false →
  fold_left addData run [] =
  [(matchKeyOf g, primaryAggregate g (g_EFF_RATE g) run)].
Proof.
  intros Hne HF Hd. destruct run as [|r run]; [done|].
  inversion HF as [|? ? Hr HF']; subst. simpl in Hd.
  simpl fold_left. rewrite addData_plain, accumulate_nil by done.
  rewrite (fold_addData_plain run).
  - rewrite bump_sums, getMatchKey_matchKeyOf. do 2 f_equal.
    aggregate_fields.
    by rewrite Hd.
  - eapply Forall_impl; [exact HF'|]. simpl. intros r' Hr'. split.
    + by apply getMatchKey_group.
    + apply (f_equal g_PAY_CODE) in Hr'. simpl in Hr'. by rewrite Hr'.
Qed.

Lemma fold_run_double run g :
  run ≠ [] →
  Forall (λ r, groupFields r = g) run →
  inArray DOUBLE_RATE_PAY_CODES (g_PAY_CODE g) = true →
  fold_left addData run [] =
  [(matchKeyOf g, primaryAggregate g (2 * g_EFF_RATE g) run);
   (matchKeyOf (compensatingGroup g),
    compensatingAggregate g (g_EFF_RATE g) run)].
Proof.
  intros Hne HF Hd. destruct run as [|r run]; [done|].
  inversion HF as [|? ? Hr HF']; subst. simpl in Hd.
  simpl fold_left. rewrite addData_double_nil by done.
  rewrite (fold_addData_double run).
  - rewrite bump_sums, bump_adj_sums, !getMatchKey_matchKeyOf.
    rewrite groupFields_adjRecord.
    assert (Hp : addTransit (UNIT9 r + transitHours run)
                   (addHours (HOURS r - UNIT9 r + netHours run) (initData r)) =
                 primaryAggregate (groupFields r)
                   (2 * g_EFF_RATE (groupFields r)) (r :: run)).
    { aggregate_fields. by rewrite Hd. }
    assert (Hc : addTransit (- (UNIT9 r + transitHours run))
                   (addHours (UNIT9 r + transitHours run -
                              (HOURS r - UNIT9 r + netHours run))
                             (initData (adjRecord r))) =
                 compensatingAggregate (groupFields r)
                   (g_EFF_RATE (groupFields r)) (r :: run)).
    { aggregate_fields. }
    by rewrite Hp, Hc.
  - by apply getMatchKey_adjRecord_ne.
  - eapply Forall_impl; [exact HF'|]. simpl. intros r' Hr'. repeat split.
    + by apply getMatchKey_group.
    + apply getMatchKey_group. by rewrite !groupFields_adjRecord, Hr'.
    + apply (f_equal g_PAY_CODE) in Hr'. simpl in Hr'. by rewrite Hr'.
Qed.

(** What a run on its own leaves in the table and hands to the writer. *)
Lemma processExportRecords_run env run g :
  run ≠ [] →
  Forall (λ r, groupFields r = g) run →
  processExportRecords env run =
  mkState (Some g) (fold_left addData (keptOf env run) [])
          (writeData (fold_left addData (keptOf env run) []))
          (raisedOf env run) (length (keptOf env run)).
Proof.
  intros Hne HF. unfold processExportRecords.
  by rewrite (processLoop_run env run g).
Qed.

Lemma headGroup_app_nonempty l1 l2 :
  l1 ≠ [] → headGroup (l1 ++ l2) = headGroup l1.
Proof. by destruct l1. Qed.

(** A maximal run inside a batch: the lines of the batch are those of what
    comes before, of the run, and of what comes after. *)
Lemma written_around_run env pre run post :
  run ≠ [] → boundary pre run → boundary run post →
  written (processExportRecords env (pre ++ run ++ post)) =
  written (processExportRecords env pre) ++
  written (processExportRecords env run) ++
  written (processExportRecords env post).
Proof.
  intros Hne Hb1 Hb2.
  destruct (processExportRecords_split env pre (run ++ post)) as (-> & _).
  { intros g Hg. rewrite headGroup_app_nonempty by done. by apply Hb1. }
  by destruct (processExportRecords_split env run post Hb2) as (-> & _).
Qed.

Lemma rolledBack_around_run env pre run post :
  run ≠ [] → boundary pre run → boundary run post →
  rolledBack (processExportRecords env (pre ++ run ++ post)) =
  rolledBack (processExportRecords env pre) ++
  rolledBack (processExportRecords env run) ++
  rolledBack (processExportRecords env post).
Proof.
  intros Hne Hb1 Hb2.
  destruct (processExportRecords_split env pre (run ++ post)) as (_ & -> & _).
  { intros g Hg. rewrite headGroup_app_nonempty by done. by apply Hb1. }
  by destruct (processExportRecords_split env run post Hb2) as (_ & -> & _).
Qed.

(** ** What the table holds while a batch is read *)

Lemma screen_Keep_inv env r r' :
  screen env r = Keep r' →
  ∃ m, unionCodeMap env = Some m ∧ r' = overridden m r ∧
       accepted env (groupFields r).
Proof.
  unfold screen, isUnionCodeNull, accepted. simpl.
  destruct (inArray (payCodeSet env) (PAY_CODE r)) eqn:Hp; simpl; [|done].
  destruct (LD1 r) as [ld1|] eqn:Hld; [|done].
  destruct (inArray VALID_FWO_PREFIXES (firstCharUpper ld1)) eqn:Hpre;
    simpl; [|done].
  destruct (unionCodeMap env) as [m|]; [|done].
  intros [= <-]. exists m. repeat split; eauto.
Qed.

Lemma keptOf_app env l1 l2 : keptOf env (l1 ++ l2) = keptOf env l1 ++ keptOf env l2.
Proof. unfold keptOf. apply omap_app. Qed.

Lemma keptOf_uniform env g run :
  Forall (λ r, groupFields r = g) run →
  Forall (λ r', groupFields r' = keptGroup env g) (keptOf env run).
Proof.
  induction 1 as [|r run Hr _ IH]; [constructor|].
  rewrite keptOf_cons. destruct (screen env r) as [|e|r'] eqn:Hs; try done.
  constructor; [|done].
  apply screen_Keep_inv in Hs as (m & Hm & -> & _).
  unfold keptGroup. rewrite Hm, groupFields_overridden, <- Hr. reflexivity.
Qed.

Lemma fold_uniform_shape l g :
  Forall (λ r, groupFields r = g) l →
  fold_left addData l [] = [] ∨
  (inArray DOUBLE_RATE_PAY_CODES (g_PAY_CODE g) = false ∧
   fold_left addData l [] =
   [(matchKeyOf g, primaryAggregate g (g_EFF_RATE g) l)]) ∨
  (inArray DOUBLE_RATE_PAY_CODES (g_PAY_CODE g) = true ∧
   fold_left addData l [] =
   [(matchKeyOf g, primaryAggregate g (2 * g_EFF_RATE g) l);
    (matchKeyOf (compensatingGroup g),
     compensatingAggregate g (g_EFF_RATE g) l)]).
Proof.
  intros HF. destruct l as [|r l]; [by left|right].
  destruct (inArray DOUBLE_RATE_PAY_CODES (g_PAY_CODE g)) eqn:Hd.
  - right. split; [done|]. by apply fold_run_double.
  - left. split; [done|]. by apply fold_run_plain.
Qed.

Lemma tableOfCurrentGroup_init env : tableOfCurrentGroup env initState.
Proof. exists []. split; [constructor | reflexivity]. Qed.

Lemma tableOfCurrentGroup_step env st r :
  tableOfCurrentGroup env st → tableOfCurrentGroup env (step env st r).
Proof.
  intros (run & HF & Ht).
  destruct (decide (curData st = Some (groupFields r))) as [Hc|Hc].
  - exists (run ++ [r]). rewrite step_same_group by done. split.
    + rewrite Forall_app. split.
      * eapply Forall_impl; [exact HF|]. simpl. intros r0 Hr0.
        by destruct (screen env r).
      * constructor; [|constructor]. by destruct (screen env r).
    + rewrite keptOf_app, fold_left_app, <- Ht, keptOf_cons.
      by destruct (screen env r).
  - exists [r]. rewrite step_new_group by done. split.
    + constructor; [|constructor]. simpl.
      change (curData (step env initState r) = Some (groupFields r)).
      apply curData_step.
    + change (summedRecords (step env initState r) =
              fold_left addData (keptOf env [r]) []).
      rewrite step_initState, step_same_group by done.
      rewrite keptOf_cons. by destruct (screen env r).
Qed.

Lemma tableOfCurrentGroup_processLoop env st l :
  tableOfCurrentGroup env st → tableOfCurrentGroup env (processLoop env st l).
Proof.
  revert st. induction l as [|r l IH]; intros st Hst; [done|].
  rewrite processLoop_cons. by apply IH, tableOfCurrentGroup_step.
Qed.

(** The table of a state in which it belongs to the current group is empty,
    or holds the entry of the group, or that entry and the compensating one
    of a double-rate group. *)
Lemma tableOfCurrentGroup_shape env st :
  tableOfCurrentGroup env st →
  summedRecords st = [] ∨
  ∃ g l, curData st = Some g ∧
    let g' := keptGroup env g in
    (inArray DOUBLE_RATE_PAY_CODES (g_PAY_CODE g) = false ∧
     summedRecords st = [(matchKeyOf g', primaryAggregate g' (g_EFF_RATE g') l)])
    ∨
    (inArray DOUBLE_RATE_PAY_CODES (g_PAY_CODE g) = true ∧
     summedRecords st =
     [(matchKeyOf g', primaryAggregate g' (2 * g_EFF_RATE g') l);
      (matchKeyOf (compensatingGroup g'),
       compensatingAggregate g' (g_EFF_RATE g') l)]).
Proof.
  intros (run & HF & Ht).
  destruct run as [|r run]; [by left|].
  assert (Hc : curData st = Some (groupFields r)) by by inversion HF.
  assert (HF' : Forall (λ r0, groupFields r0 = groupFields r) (r :: run)).
  { eapply Forall_impl; [exact HF|]. simpl. intros r0 Hr0. congruence. }
  apply (keptOf_uniform env) in HF'.
  destruct (fold_uniform_shape _ _ HF') as [He|[[Hd He]|[Hd He]]].
  - left. congruence.
  - right. exists (groupFields r), (keptOf env (r :: run)).
    split; [done|]. left. split; [|congruence].
    rewrite <- Hd. unfold keptGroup. by destruct (unionCodeMap env).
  - right. exists (groupFields r), (keptOf env (r :: run)).
    split; [done|]. right. split; [|congruence].
    rewrite <- Hd. unfold keptGroup. by destruct (unionCodeMap env).
Qed.

(** ** Properties kept by every table entry and every written line *)

Lemma addData_Forall (Q : Aggregate → Prop) t r :
  (∀ d a, Q a → Q (addHours d a)) →
  (∀ d a, Q a → Q (addTransit d a)) →
  Q (initData r) →
  Q (initData (adjRecord r)) →
  Forall (λ ka, Q ka.2) t →
  Forall (λ ka, Q ka.2) (addData t r).
Proof.
  intros Hh Ht Hi Hc HF. rewrite addData_eq.
  destruct (inArray DOUBLE_RATE_PAY_CODES (PAY_CODE r)).
  - apply accumulate_Forall; [done..|]. by apply accumulate_Forall.
  - by apply accumulate_Forall.
Qed.

Lemma writeData_Forall (Q : Aggregate → Prop) t :
  Forall (λ ka, Q ka.2) t →
  Forall (λ row, ∃ a, Q a ∧ row = rowOf a) (writeData t).
Proof.
  intros HF. apply Forall_forall. intros row Hrow.
  apply writeData_rows in Hrow as (ka & Hin & ->).
  rewrite Forall_forall in HF. eauto.
Qed.

Section Kept.
Variable env : Env.
Variable Q : Aggregate → Prop.
Variable batch : list Record_.
Hypothesis Q_addHours : ∀ d a, Q a → Q (addHours d a).
Hypothesis Q_addTransit : ∀ d a, Q a → Q (addTransit d a).
Hypothesis Q_initData : ∀ r r', r ∈ batch → screen env r = Keep r' →
  Q (initData r') ∧ Q (initData (adjRecord r')).

Lemma keeps_step st r : r ∈ batch → keeps Q st → keeps Q (step env st r).
Proof using Q_addHours Q_addTransit Q_initData.
  intros Hr [Ht Hw].
  assert (Hf : keeps Q (flushGroup st r)).
  { unfold flushGroup. destruct (groupingChange st r); [|done].
    split; simpl; [constructor|].
    apply Forall_app. split; [done|]. by apply writeData_Forall. }
  unfold step, tryBody.
  destruct (screen env r) as [|e|r'] eqn:Hs; simpl; try done.
  destruct Hf as [Ht' Hw']. split; simpl; [|done].
  destruct (Q_initData r r' Hr Hs). by apply addData_Forall.
Qed.

Lemma keeps_processLoop l st :
  l ⊆ batch → keeps Q st → keeps Q (processLoop env st l).
Proof using Q_addHours Q_addTransit Q_initData.
  revert st. induction l as [|r l IH]; intros st Hsub Hst; [done|].
  rewrite processLoop_cons. apply IH.
  - intros x Hx. apply Hsub. by right.
  - apply keeps_step; [|done]. apply Hsub. by left.
Qed.

Lemma keeps_written row :
  row ∈ written (processExportRecords env batch) →
  ∃ a, Q a ∧ row = rowOf a.
Proof using Q_addHours Q_addTransit Q_initData.
  assert (Hk : keeps Q (processLoop env initState batch)).
  { apply keeps_processLoop; [done|]. split; constructor. }
  destruct Hk as [Ht Hw]. unfold processExportRecords, finish. simpl.
  intros Hin. apply elem_of_app in Hin as [Hin|Hin].
  - rewrite Forall_forall in Hw. by apply Hw.
  - apply writeData_Forall in Ht. rewrite Forall_forall in Ht. by apply Ht.
Qed.
End Kept.

(** ** Records whose turn fails *)

Lemma raises_group env r1 r2 :
  groupFields r1 = groupFields r2 → raises env r1 = raises env r2.
Proof.
  destruct r1 as [e1 d1 l1 p1 x1 j1 h1 u1], r2 as [e2 d2 l2 p2 x2 j2 h2 u2].
  unfold groupFields, raises, screen, isUnionCodeNull. simpl.
  intros [= -> -> -> -> -> ->].
  destruct (inArray (payCodeSet env) _); simpl; [|done].
  destruct l2 as [ld1|]; [|done].
  destruct (inArray VALID_FWO_PREFIXES _); simpl; [|done].
  by destruct (unionCodeMap env).
Qed.

Lemma rolledBack_step env st r :
  rolledBack (step env st r) =
  rolledBack st ++ (if raises env r then [r] else []).
Proof.
  unfold step, tryBody, flushGroup, raises.
  destruct (groupingChange st r); destruct (screen env r); simpl;
    by rewrite ?app_nil_r.
Qed.

Lemma rolledBack_processLoop env l : ∀ st,
  rolledBack (processLoop env st l) = rolledBack st ++ raisedOf env l.
Proof.
  induction l as [|r l IH]; intros st.
  - simpl. by rewrite app_nil_r.
  - rewrite processLoop_cons, IH, rolledBack_step, raisedOf_cons.
    unfold raises. destruct (screen env r); by rewrite <- ?app_assoc, ?app_nil_r.
Qed.

Lemma raisedOf_all env run :
  Forall (λ r, raises env r = true) run →
  raisedOf env run = run ∧ keptOf env run = [].
Proof.
  induction 1 as [|r run Hr _ [IH1 IH2]]; [done|].
  rewrite raisedOf_cons, keptOf_cons. unfold raises in Hr.
  destruct (screen env r); try done. by rewrite IH1, IH2.
Qed.

(** ** A run without union-code map *)

Lemma screen_noMap env r :
  unionCodeMap env = None →
  accepted env (groupFields r) →
  screen env r = Raise "Union Code mapping is not available".
Proof.
  intros Hm [Hp (ld1 & Hld & Hpre)]. simpl in *.
  unfold screen, isUnionCodeNull. by rewrite Hp, Hld, Hpre, Hm.
Qed.

Lemma written_noMap env l :
  unionCodeMap env = None → written (processExportRecords env l) = [].
Proof.
  intros Hm. destruct (written (processExportRecords env l)) as [|row w] eqn:Hw;
    [done|exfalso].
  destruct (keeps_written env (λ _, False) l) with (row := row)
    as (a & [] & _); try done.
  - intros r r' _ Hs. apply screen_Keep_inv in Hs as (m & Hm' & _). congruence.
  - rewrite Hw. left.
Qed.

(** ** Month arithmetic *)

Lemma daysInMonth_bounds y m : 28 <= daysInMonth y m <= 31.
Proof.
  unfold daysInMonth.
  destruct (m =? 2)%Z; [destruct (isLeap y); lia|].
  destruct ((m =? 4) || (m =? 6) || (m =? 9) || (m =? 11))%Z; lia.
Qed.

Lemma addMonths_one d :
  1 <= month d <= 12 →
  addMonths d 1 =
  if (month d <? 12)%Z
  then mkDate (year d) (month d + 1)
              (Z.min (day d) (daysInMonth (year d) (month d + 1)))
  else mkDate (year d + 1) 1 (Z.min (day d) (daysInMonth (year d + 1) 1)).
Proof.
  intros Hm. unfold addMonths.
  destruct (Z.ltb_spec (month d) 12) as [Hlt|Hge].
  - assert (Hq : (year d * 12 + (month d - 1) + 1) / 12 = year d)
      by (symmetry; apply Z.div_unique with (r := month d); lia).
    assert (Hr : (year d * 12 + (month d - 1) + 1) mod 12 = month d)
      by (symmetry; apply Z.mod_unique with (q := year d); lia).
    rewrite Hq, Hr. reflexivity.
  - assert (Hq : (year d * 12 + (month d - 1) + 1) / 12 = year d + 1)
      by (symmetry; apply Z.div_unique with (r := 0); lia).
    assert (Hr : (year d * 12 + (month d - 1) + 1) mod 12 = 0)
      by (symmetry; apply Z.mod_unique with (q := year d + 1); lia).
    rewrite Hq, Hr. reflexivity.
Qed.

Lemma addMonths_one_not_tomorrow d :
  validDate d → addMonths d 1 ≠ tomorrow d.
Proof.
  intros [Hm Hd]. rewrite addMonths_one by done. unfold tomorrow.
  pose proof (daysInMonth_bounds (year d) (month d + 1)).
  pose proof (daysInMonth_bounds (year d + 1) 1).
  pose proof (daysInMonth_bounds (year d) (month d)).
  destruct (Z.ltb_spec (day d) (daysInMonth (year d) (month d)));
    destruct (Z.ltb_spec (month d) 12); intros [=]; lia.
Qed.

(** ** The prefix check *)

Lemma upperAscii_valid c :
  inArray VALID_FWO_PREFIXES (String (upperAscii c) EmptyString) =
  bool_decide (c = "M" ∨ c = "m" ∨ c = "F" ∨ c = "f")%char.
Proof. destruct c as [[] [] [] [] [] [] [] []]; reflexivity. Qed.

Lemma validPrefix_spec ld1 :
  inArray VALID_FWO_PREFIXES (firstCharUpper ld1) = true ↔ validPrefix ld1.
Proof.
  unfold validPrefix. destruct ld1 as [|c rest]; simpl.
  - split; [done|]. by intros (c & rest & [=] & _).
  - rewrite upperAscii_valid, bool_decide_eq_true. split.
    + intros Hc. by exists c, rest.
    + by intros (c' & rest' & [= -> ->] & Hc).
Qed.

(** ** The recursion of addData *)

Lemma addData_run_adjRecord t r n t' :
  addData_run t (adjRecord r) n t' →
  n = 0%nat ∧ t' = accumulate t (adjRecord r).
Proof.
  inversion 1 as [? ? Hd|? ? ? ? Hd]; subst; [done|].
  simpl in Hd. by rewrite WORKED_ALLOCATED_REG_not_double in Hd.
Qed.

(** ** Worked runs *)

(** Two regular records of 8 and -3 hours on one key give one line of 5. *)
Example run_correction :
  written (processExportRecords sampleEnv [regular8; regularMinus3]) =
  [mkRow 5 (Some "M55") "E1" "01/02/2024" "REG" 40 "JC1" 0].
Proof. reflexivity. Qed.

(** Records of 8 and -8 hours on one key give no line. *)
Example run_zero_sum :
  written (processExportRecords sampleEnv [regular8; regularMinus8]) = [].
Proof. reflexivity. Qed.

(** The employee E2 is not in the map: the line carries rate 0. *)
Example run_unlisted_employee :
  written (processExportRecords sampleEnv [unlisted8]) =
  [mkRow 8 (Some "f200") "E2" "01/02/2024" "REG" 0 "JC1" 0].
Proof. reflexivity. Qed.

(** A golden-time record with transit: 6 net hours go to its own line; the
    compensating record carries -6 hours and -2 transit, of which the table
    again takes hours less transit, -4. *)
Example run_double_rate_with_transit :
  adjRecord goldenWithTransit =
    mkRecord "E1" "01/02/2024" (Some "M55") "WORKED_ALLOCATED_REG" 40 "JC1"
             (-6) (-2) ∧
  written (processExportRecords sampleEnv [goldenWithTransit]) =
  [mkRow 6 (Some "M55") "E1" "01/02/2024" "GOLDEN_TIME" 80 "JC1" 2;
   mkRow (-4) (Some "M55") "E1" "01/02/2024" "WORKED_ALLOCATED_REG" 40 "JC1" (-2)].
Proof. split; reflexivity. Qed.

(** A failed difference computation and an abort request reach the handler of
    [main]; the writer is closed in both cases. *)
Example run_diff_failure :
  let res := main (mkHost ["REG"] [] None None) in
  run_caught res = Some "computeDifferences failed" ∧
  run_writerClosed res = true ∧ written (run_state res) = [].
Proof. repeat split. Qed.

Example run_abort :
  let res := main (mkHost ["REG"] [("E1", Some "IBEW")]
                          (Some [regular8; golden8]) (Some 1%nat)) in
  run_caught res = Some "abort requested" ∧
  run_writerClosed res = true ∧
  written (run_state res) = [] ∧
  recordCount (run_state res) = 1%nat.
Proof. repeat split. Qed.

(** ** The claims *)

(** C3 (as amended). At every point of a batch the open aggregates belong to
    one active group, the group of the record read last, and there are at
    most two of them: the aggregate of the group's own key and, for a group
    with a double-rate pay code, the compensating aggregate under
    WORKED_ALLOCATED_REG; a group whose pay code is not double-rate has at
    most one. *)
Theorem open_aggregates_bound env exportRecords n :
  let st := processLoop env initState (take n exportRecords) in
  (length (summedRecords st) ≤ 2)%nat ∧
  (∀ g, curData st = Some g →
        inArray DOUBLE_RATE_PAY_CODES (g_PAY_CODE g) = false →
        (length (summedRecords st) ≤ 1)%nat) ∧
  (∀ k a, (k, a) ∈ summedRecords st →
     ∃ g, curData st = Some g ∧
          emplid a = g_DISPLAY_EMPLOYEE g ∧ workDt a = g_WORK_DT g ∧
          fwo a = g_LD1 g ∧ jobCode a = g_LD8 g ∧
          (payCode a = g_PAY_CODE g ∨
           (inArray DOUBLE_RATE_PAY_CODES (g_PAY_CODE g) = true ∧
            payCode a = WORKED_ALLOCATED_REG))).
Proof.
  intros st.
  assert (Hinv : tableOfCurrentGroup env st)
    by apply tableOfCurrentGroup_processLoop, tableOfCurrentGroup_init.
  assert (Hkg : ∀ g, g_DISPLAY_EMPLOYEE (keptGroup env g) = g_DISPLAY_EMPLOYEE g ∧
                     g_WORK_DT (keptGroup env g) = g_WORK_DT g ∧
                     g_LD1 (keptGroup env g) = g_LD1 g ∧
                     g_LD8 (keptGroup env g) = g_LD8 g ∧
                     g_PAY_CODE (keptGroup env g) = g_PAY_CODE g).
  { intros g. unfold keptGroup. by destruct (unionCodeMap env). }
  destruct (tableOfCurrentGroup_shape env st Hinv)
    as [He|(g & l & Hc & [[Hd He]|[Hd He]])]; rewrite He; simpl.
  - repeat split; try lia. intros k a Hin. by apply elem_of_nil in Hin.
  - destruct (Hkg g) as (H1 & H2 & H3 & H4 & H5).
    repeat split; try lia.
    intros k a Hin. apply list_elem_of_singleton in Hin as [= -> ->].
    exists g. simpl. rewrite H1, H2, H3, H4, H5. eauto 10.
  - destruct (Hkg g) as (H1 & H2 & H3 & H4 & H5).
    repeat split; try lia.
    + intros g0 Hc0 Hd0. congruence.
    + intros k a Hin.
      apply elem_of_cons in Hin as [[= -> ->]|Hin];
        [|apply list_elem_of_singleton in Hin as [= -> ->]];
        exists g; simpl; rewrite H1, H2, H3, H4, ?H5; eauto 10.
Qed.

(** After one golden-time record the table holds two open aggregates. *)
Lemma open_aggregates_counterexample :
  length (summedRecords (processLoop sampleEnv initState
                           (take 1 [golden8; regular8]))) = 2%nat ∧
  ¬ (length (summedRecords (processLoop sampleEnv initState
                              (take 1 [golden8; regular8]))) ≤ 1)%nat.
Proof. split; [reflexivity|]. vm_compute. lia. Qed.

(** C4 (as amended). The compensating record of a double-rate record is
    handed to the table by [addData] itself, inside the turn of the record it
    compensates: it is folded into the entry of its own key right after that
    record, with the work order and the already overridden rate of that
    record, and without a second pass through the pay-code check, the prefix
    check or the union-code override. Nothing is asked of
    WORKED_ALLOCATED_REG: the record is aggregated whether or not that pay
    code is in the exported set. *)
Theorem compensating_record_skips_filter env st r r' :
  screen env r = Keep r' →
  inArray DOUBLE_RATE_PAY_CODES (PAY_CODE r) = true →
  let t := summedRecords (flushGroup st r) in
  let kc := getMatchKey (adjRecord r') in
  summedRecords (step env st r) =
    accumulate (accumulate t r') (adjRecord r') ∧
  PAY_CODE (adjRecord r') = WORKED_ALLOCATED_REG ∧
  LD1 (adjRecord r') = LD1 r ∧
  EFF_RATE (adjRecord r') = EFF_RATE r' ∧
  lt_get kc (summedRecords (step env st r)) =
    Some (bump (adjRecord r')
               (default (initData (adjRecord r')) (lt_get kc t))).
Proof.
  intros Hs Hd t kc.
  destruct (screen_Keep_inv _ _ _ Hs) as (m & Hm & Hr' & _).
  assert (Hd' : inArray DOUBLE_RATE_PAY_CODES (PAY_CODE r') = true).
  { rewrite Hr'. unfold overridden. by destruct (isBlank _). }
  assert (Hld : LD1 r' = LD1 r).
  { rewrite Hr'. unfold overridden. by destruct (isBlank _). }
  assert (Hstep : summedRecords (step env st r) =
                  accumulate (accumulate t r') (adjRecord r')).
  { unfold step, tryBody. rewrite Hs. simpl. by apply addData_double. }
  repeat split; try done.
  rewrite Hstep, lt_get_accumulate. rewrite decide_True by done.
  rewrite lt_get_accumulate.
  rewrite decide_False
    by (intros Heq; by apply (getMatchKey_adjRecord_ne r' Hd')).
  reflexivity.
Qed.

Lemma compensating_record_skips_filter_witness :
  inArray (payCodeSet goldenOnlyEnv) WORKED_ALLOCATED_REG = false ∧
  summedRecords (step goldenOnlyEnv initState golden8) =
    accumulate (accumulate [] golden8) (adjRecord golden8) ∧
  PAY_CODE (adjRecord golden8) = WORKED_ALLOCATED_REG ∧
  LD1 (adjRecord golden8) = LD1 golden8 ∧
  EFF_RATE (adjRecord golden8) = EFF_RATE golden8 ∧
  lt_get (getMatchKey (adjRecord golden8))
         (summedRecords (step goldenOnlyEnv initState golden8)) =
    Some (bump (adjRecord golden8)
               (default (initData (adjRecord golden8))
                        (lt_get (getMatchKey (adjRecord golden8)) []))).
Proof.
  split; [reflexivity|].
  apply (compensating_record_skips_filter goldenOnlyEnv initState
           golden8 golden8); reflexivity.
Defined.

(** With only GOLDEN_TIME in the exported pay codes, the compensating record
    of a golden-time record still reaches the table and is written under
    WORKED_ALLOCATED_REG. *)
Lemma compensating_record_counterexample :
  inArray (payCodeSet goldenOnlyEnv) WORKED_ALLOCATED_REG = false ∧
  written (processExportRecords goldenOnlyEnv [golden8]) =
    [mkRow 8 (Some "M55") "E1" "01/02/2024" "GOLDEN_TIME" 80 "JC1" 0;
     mkRow (-8) (Some "M55") "E1" "01/02/2024" "WORKED_ALLOCATED_REG" 40 "JC1" 0].
Proof. split; reflexivity. Qed.

(** C7. The records rolled back with [rollbackRecord] in a run over a batch
    are exactly the records whose turn raised an error, each once and in
    batch order, and the loop goes on to the end of the batch. A maximal run
    of records of one group in which a turn fails is rolled back as a whole
    and adds no line to the file; the lines before it and after it are those
    the records before it and after it yield on their own. *)
Theorem per_record_rollback env pre run post g bad :
  Forall (λ r, groupFields r = g) run →
  boundary pre run →
  boundary run post →
  bad ∈ run →
  raises env bad = true →
  (∀ l, rolledBack (processExportRecords env l) = raisedOf env l) ∧
  rolledBack (processExportRecords env (pre ++ run ++ post)) =
    rolledBack (processExportRecords env pre) ++ run ++
    rolledBack (processExportRecords env post) ∧
  written (processExportRecords env (pre ++ run ++ post)) =
    written (processExportRecords env pre) ++
    written (processExportRecords env post).
Proof.
  intros HF Hb1 Hb2 Hbad Hraise.
  assert (Hne : run ≠ []) by (intros ->; by apply elem_of_nil in Hbad).
  assert (Hall : Forall (λ r, raises env r = true) run).
  { rewrite Forall_forall in HF. apply Forall_forall. intros r Hr.
    rewrite <- Hraise. apply raises_group.
    by rewrite (HF r Hr), (HF bad Hbad). }
  destruct (raisedOf_all env run Hall) as [Hrb Hkept].
  assert (Hgen : ∀ l, rolledBack (processExportRecords env l) = raisedOf env l).
  { intros l. unfold processExportRecords, finish. simpl.
    by rewrite rolledBack_processLoop. }
  split; [exact Hgen|]. split.
  - rewrite rolledBack_around_run by done.
    by rewrite (Hgen run), Hrb.
  - rewrite written_around_run by done.
    rewrite (processExportRecords_run env run g) by done. simpl.
    by rewrite Hkept.
Qed.

Lemma per_record_rollback_witness :
  (∀ l, rolledBack (processExportRecords sampleEnv l) = raisedOf sampleEnv l) ∧
  rolledBack (processExportRecords sampleEnv
                ([golden8] ++ [noWorkOrder8] ++ [regular8; regularMinus3])) =
    rolledBack (processExportRecords sampleEnv [golden8]) ++ [noWorkOrder8] ++
    rolledBack (processExportRecords sampleEnv [regular8; regularMinus3]) ∧
  written (processExportRecords sampleEnv
             ([golden8] ++ [noWorkOrder8] ++ [regular8; regularMinus3])) =
    written (processExportRecords sampleEnv [golden8]) ++
    written (processExportRecords sampleEnv [regular8; regularMinus3]).
Proof.
  apply (per_record_rollback sampleEnv [golden8] [noWorkOrder8]
           [regular8; regularMinus3] (groupFields noWorkOrder8) noWorkOrder8).
  - repeat constructor.
  - intros g [= <-]. discriminate.
  - intros g [= <-]. discriminate.
  - apply list_elem_of_singleton. reflexivity.
  - reflexivity.
Defined.

(** C6 (as amended). When no union-code map is in place, the error raised
    by [isUnionCodeNull] for a record that passed the filter is caught by the
    handler of that record's turn: every such record is rolled back with
    [rollbackRecord], none is aggregated or written, the loop runs to the end
    of the batch, no error reaches the handler of [main], and the writer is
    closed. [main] itself always stores a map before the export starts. *)
Theorem missing_union_map_is_per_record env h exportRecords :
  unionCodeMap env = None →
  h_batch h = Some exportRecords →
  h_abortAt h = None →
  (∀ e, isUnionCodeNull env e = inl "Union Code mapping is not available") ∧
  (∀ r, r ∈ exportRecords → accepted env (groupFields r) →
        screen env r = Raise "Union Code mapping is not available" ∧
        r ∈ rolledBack (run_state (runExport env h))) ∧
  rolledBack (run_state (runExport env h)) = raisedOf env exportRecords ∧
  written (run_state (runExport env h)) = [] ∧
  run_caught (runExport env h) = None ∧
  run_rollbackExport (runExport env h) = false ∧
  run_writerClosed (runExport env h) = true ∧
  (∀ h', ∃ m, main h' = runExport (mkEnv (h_payCodes h') (Some m)) h').
Proof.
  intros Hm Hb Ha.
  assert (Hrun : runExport env h =
                 mkRunResult (processExportRecords env exportRecords)
                             None false true None).
  { unfold runExport, processExportRecordsOn. by rewrite Hb, Ha. }
  assert (Hrb : rolledBack (processExportRecords env exportRecords) =
                raisedOf env exportRecords).
  { unfold processExportRecords, finish. simpl.
    by rewrite rolledBack_processLoop. }
  rewrite Hrun.
  cbn [run_state run_caught run_rollbackExport run_writerClosed].
  split_and!; try done.
  - intros e. unfold isUnionCodeNull. by rewrite Hm.
  - intros r Hr Hacc. split; [by apply screen_noMap|].
    rewrite Hrb. unfold raisedOf. apply list_elem_of_In, filter_In.
    split; [by apply list_elem_of_In|].
    unfold raises. by rewrite screen_noMap.
  - by apply written_noMap.
  - intros h'. by eexists.
Qed.

Lemma missing_union_map_is_per_record_witness :
  (∀ e, isUnionCodeNull noMapEnv e = inl "Union Code mapping is not available") ∧
  (∀ r, r ∈ default [] (h_batch sampleHost) →
        accepted noMapEnv (groupFields r) →
        screen noMapEnv r = Raise "Union Code mapping is not available" ∧
        r ∈ rolledBack (run_state (runExport noMapEnv sampleHost))) ∧
  rolledBack (run_state (runExport noMapEnv sampleHost)) =
    raisedOf noMapEnv (default [] (h_batch sampleHost)) ∧
  written (run_state (runExport noMapEnv sampleHost)) = [] ∧
  run_caught (runExport noMapEnv sampleHost) = None ∧
  run_rollbackExport (runExport noMapEnv sampleHost) = false ∧
  run_writerClosed (runExport noMapEnv sampleHost) = true ∧
  (∀ h', ∃ m, main h' = runExport (mkEnv (h_payCodes h') (Some m)) h').
Proof.
  apply (missing_union_map_is_per_record noMapEnv sampleHost
           (default [] (h_batch sampleHost))); reflexivity.
Defined.

(** Without a map, a batch of three records, two of which pass the filter:
    the error is raised for each of the two and handled in its own turn; the
    handler of [main] is not entered, so the run is not rolled back as a
    whole. *)
Lemma missing_union_map_counterexample :
  isUnionCodeNull noMapEnv "E1" = inl "Union Code mapping is not available" ∧
  run_caught (runExport noMapEnv sampleHost) = None ∧
  run_rollbackExport (runExport noMapEnv sampleHost) = false ∧
  rolledBack (run_state (runExport noMapEnv sampleHost)) =
    [mkRecord "E1" "01/02/2024" (Some "M55") "REG" 40 "JC1" 8 0;
     mkRecord "E1" "01/03/2024" (Some "f200") "REG" 40 "JC1" 4 0].
Proof. repeat split. Qed.

(** C8 (as amended). When the period status belongs to group PGE, the window
    handed to the difference computation starts three months before the begin
    of the current pay period and ends one month after the run date; for a
    calendar date that end is never the day after the run date. For another
    period group no window is built. *)
Theorem export_window status today :
  PPG status = "PGE" →
  findCurrentPeriod status today =
    inr (mkRange (addMonths (CurPrdBeg status) (-3)) (addMonths today 1)) ∧
  (∃ parms, INCR_EXPORT_DIFF_PARMS status today = inr parms ∧
            startDate parms = addMonths (CurPrdBeg status) (-3) ∧
            endDate parms = addMonths today 1) ∧
  (validDate today → addMonths today 1 ≠ tomorrow today).
Proof.
  intros Hppg.
  assert (Hf : findCurrentPeriod status today =
               inr (mkRange (addMonths (CurPrdBeg status) (-3))
                            (addMonths today 1))).
  { unfold findCurrentPeriod. by rewrite decide_True. }
  split_and!; [done| |apply addMonths_one_not_tomorrow].
  unfold INCR_EXPORT_DIFF_PARMS. rewrite Hf. eexists. split; [reflexivity|].
  split; reflexivity.
Qed.

Lemma export_window_witness :
  findCurrentPeriod sampleStatus sampleToday =
    inr (mkRange (addMonths (CurPrdBeg sampleStatus) (-3))
                 (addMonths sampleToday 1)) ∧
  (∃ parms, INCR_EXPORT_DIFF_PARMS sampleStatus sampleToday = inr parms ∧
            startDate parms = addMonths (CurPrdBeg sampleStatus) (-3) ∧
            endDate parms = addMonths sampleToday 1) ∧
  addMonths sampleToday 1 ≠ tomorrow sampleToday.
Proof.
  destruct (export_window sampleStatus sampleToday) as (Hf & Hp & Hne).
  - reflexivity.
  - split_and!; [exact Hf | exact Hp |].
    apply Hne. split; vm_compute; split; discriminate.
Defined.

(** A run on 15 January 2024: the window ends on 15 February, not on
    16 January. *)
Lemma export_window_counterexample :
  INCR_EXPORT_DIFF_PARMS sampleStatus sampleToday =
    inr (mkDiffParms (mkDate 2023 10 1) (mkDate 2024 2 15) true true
                     "PRIOR_PERIOD_ON_CHANGE" 1440 true) ∧
  tomorrow sampleToday = mkDate 2024 1 16 ∧
  mkDate 2024 2 15 ≠ tomorrow sampleToday.
Proof. split; [reflexivity|]. split; [reflexivity|]. discriminate. Qed.

(** C9. Among the records with an exported pay code and a work order, the
    filter keeps exactly those whose work order starts with M or F in either
    case: such a record is handed to the table in its turn, any other is left
    out and changes nothing. So a record on work order X123 is dropped, and
    records on M100 and f200 are kept. *)
Theorem prefix_filtering env m r ld1 :
  unionCodeMap env = Some m →
  inArray (payCodeSet env) (PAY_CODE r) = true →
  LD1 r = Some ld1 →
  (validPrefix ld1 ↔ screen env r = Keep (overridden m r)) ∧
  (¬ validPrefix ld1 ↔ screen env r = Drop) ∧
  (validPrefix ld1 →
   ∀ st, summedRecords (step env st r) =
         addData (summedRecords (flushGroup st r)) (overridden m r)) ∧
  (¬ validPrefix ld1 → ∀ st, step env st r = flushGroup st r) ∧
  ¬ validPrefix "X123" ∧ validPrefix "M100" ∧ validPrefix "f200".
Proof.
  intros Hm Hp Hld.
  assert (Hs : screen env r =
               if inArray VALID_FWO_PREFIXES (firstCharUpper ld1)
               then Keep (overridden m r) else Drop).
  { unfold screen, isUnionCodeNull. rewrite Hp, Hld, Hm. simpl.
    by destruct (inArray VALID_FWO_PREFIXES (firstCharUpper ld1)). }
  rewrite <- validPrefix_spec.
  destruct (inArray VALID_FWO_PREFIXES (firstCharUpper ld1)) eqn:Hv.
  - split_and!; try (by rewrite Hs); try done.
    + intros _ st. unfold step, tryBody. by rewrite Hs.
    + by rewrite <- validPrefix_spec.
    + by rewrite <- validPrefix_spec.
    + by rewrite <- validPrefix_spec.
  - split_and!; try (by rewrite Hs); try done.
    + intros _ st. unfold step, tryBody. by rewrite Hs.
    + by rewrite <- validPrefix_spec.
    + by rewrite <- validPrefix_spec.
    + by rewrite <- validPrefix_spec.
Qed.

Lemma prefix_filtering_witness :
  screen sampleEnv (onWorkOrder "X123") = Drop ∧
  screen sampleEnv (onWorkOrder "M100") =
    Keep (overridden sampleUnionCodes (onWorkOrder "M100")) ∧
  screen sampleEnv (onWorkOrder "f200") =
    Keep (overridden sampleUnionCodes (onWorkOrder "f200")) ∧
  (∀ st, step sampleEnv st (onWorkOrder "X123") =
         flushGroup st (onWorkOrder "X123")) ∧
  (∀ st, summedRecords (step sampleEnv st (onWorkOrder "f200")) =
         addData (summedRecords (flushGroup st (onWorkOrder "f200")))
                 (overridden sampleUnionCodes (onWorkOrder "f200"))).
Proof.
  destruct (prefix_filtering sampleEnv sampleUnionCodes (onWorkOrder "X123")
              "X123" eq_refl eq_refl eq_refl)
    as (_ & HX & _ & HXs & HnX & HM & Hf).
  destruct (prefix_filtering sampleEnv sampleUnionCodes (onWorkOrder "M100")
              "M100" eq_refl eq_refl eq_refl) as (HMk & _).
  destruct (prefix_filtering sampleEnv sampleUnionCodes (onWorkOrder "f200")
              "f200" eq_refl eq_refl eq_refl) as (Hfk & _ & Hfs & _).
  split_and!.
  - by apply HX.
  - by apply HMk.
  - by apply Hfk.
  - by apply HXs.
  - by apply Hfs.
Defined.

(** C10. A call of [addData] ends, and it nests into itself at most once:
    once for a record with a double-rate pay code, not at all for any other.
    The record of the nested call carries WORKED_ALLOCATED_REG, which is not
    a double-rate pay code, so the nested call makes no further call. *)
Theorem addData_nesting t r :
  ∃ n, addData_run t r n (addData t r) ∧
       (n ≤ 1)%nat ∧
       (n = 1%nat ↔ inArray DOUBLE_RATE_PAY_CODES (PAY_CODE r) = true) ∧
       (∀ n' t', addData_run t r n' t' → n' = n ∧ t' = addData t r) ∧
       PAY_CODE (adjRecord r) = WORKED_ALLOCATED_REG ∧
       inArray DOUBLE_RATE_PAY_CODES WORKED_ALLOCATED_REG = false ∧
       (∀ t0 n0 t1, addData_run t0 (adjRecord r) n0 t1 → n0 = 0%nat).
Proof.
  destruct (inArray DOUBLE_RATE_PAY_CODES (PAY_CODE r)) eqn:Hd.
  - exists 1%nat. rewrite addData_double by done. split_and!; try done.
    + apply run_spawn; [done|]. by apply run_plain.
    + intros n' t'. inversion 1 as [? ? Hd'|? ? n0 ? Hd' Hrun]; subst;
        [congruence|].
      by apply addData_run_adjRecord in Hrun as [-> ->].
    + intros t0 n0 t1 Hrun. by apply addData_run_adjRecord in Hrun as [-> _].
  - exists 0%nat. rewrite addData_plain by done. split_and!; try done.
    + by apply run_plain.
    + lia.
    + intros n' t'. inversion 1 as [? ? Hd'|? ? n0 ? Hd' Hrun]; subst;
        [done|congruence].
    + intros t0 n0 t1 Hrun. by apply addData_run_adjRecord in Hrun as [-> _].
Qed.

(** * Further properties of the script *)

(** ** The union-code map *)



(** ** The match key *)








(** ** Keys and entries of the table *)

Lemma lt_containsKey_spec k t : lt_containsKey k t = true ↔ k ∈ t.*1.
Proof.
  unfold lt_containsKey. rewrite bool_decide_eq_true.
  induction t as [|[k' a] t IH]; simpl.
  - split; [by intros [? ?]|]. intros Hin. by apply elem_of_nil in Hin.
  - rewrite elem_of_cons. destruct (decide (k' = k)) as [->|Hne].
    + split; eauto.
    + rewrite IH. split; [auto|]. by intros [->|?].
Qed.

Lemma keys_accumulate t r :
  (accumulate t r).*1 =
  t.*1 ++ (if lt_containsKey (getMatchKey r) t then [] else [getMatchKey r]).
Proof.
  induction t as [|[k a] t IH].
  - by rewrite accumulate_nil.
  - destruct (decide (k = getMatchKey r)) as [->|Hne].
    + rewrite accumulate_hit, lt_containsKey_cons_eq by done.
      by rewrite app_nil_r.
    + rewrite accumulate_miss, lt_containsKey_cons_ne by done.
      rewrite !fmap_cons, IH. reflexivity.
Qed.

Lemma NoDup_accumulate t r : NoDup t.*1 → NoDup (accumulate t r).*1.
Proof.
  intros Hnd. rewrite keys_accumulate.
  destruct (lt_containsKey (getMatchKey r) t) eqn:Hc.
  - by rewrite app_nil_r.
  - apply NoDup_app. split_and!; [done| |apply NoDup_singleton].
    intros k Hk Hin. apply list_elem_of_singleton in Hin as ->.
    apply lt_containsKey_spec in Hk. congruence.
Qed.

Lemma NoDup_addData t r : NoDup t.*1 → NoDup (addData t r).*1.
Proof.
  intros Hnd. rewrite addData_eq.
  destruct (inArray DOUBLE_RATE_PAY_CODES (PAY_CODE r));
    auto using NoDup_accumulate.
Qed.

Lemma sameIdentity_refl a : sameIdentity a a.
Proof. by repeat split. Qed.

Lemma sameIdentity_bump r a : sameIdentity a (bump r a).
Proof. by repeat split. Qed.

Lemma sameIdentity_trans a b c :
  sameIdentity a b → sameIdentity b c → sameIdentity a c.
Proof. unfold sameIdentity. intuition congruence. Qed.

Lemma accumulate_keeps_entry t r k a :
  lt_get k t = Some a →
  ∃ a', lt_get k (accumulate t r) = Some a' ∧ sameIdentity a a'.
Proof.
  intros Hget. rewrite lt_get_accumulate, Hget. simpl.
  destruct (decide (k = getMatchKey r)); eauto using sameIdentity_refl,
    sameIdentity_bump.
Qed.

(** X9. An entry of the table stays under its key through [addData], with
    its work order, employee, date, pay code, job code and rate as they were
    when the entry was made: only hours and transit move. No key leaves the
    table and the order of the keys is kept; new keys go to the end. *)
Theorem addData_keeps_entries t r k a :
  lt_get k t = Some a →
  (∃ a', lt_get k (addData t r) = Some a' ∧ sameIdentity a a') ∧
  lt_getKeyArray t `prefix_of` lt_getKeyArray (addData t r).
Proof.
  intros Hget. rewrite addData_eq. unfold lt_getKeyArray.
  destruct (inArray DOUBLE_RATE_PAY_CODES (PAY_CODE r)).
  - split.
    + destruct (accumulate_keeps_entry t r k a Hget) as (a1 & H1 & Hs1).
      destruct (accumulate_keeps_entry _ (adjRecord r) k a1 H1)
        as (a2 & H2 & Hs2).
      eauto using sameIdentity_trans.
    + rewrite !keys_accumulate, <- app_assoc. by eexists.
  - split; [by apply accumulate_keeps_entry|].
    rewrite keys_accumulate. by eexists.
Qed.

Lemma addData_keeps_entries_witness :
  (∃ a', lt_get (getMatchKey regular8) (addData (addData [] regular8) golden8)
         = Some a' ∧
         sameIdentity (bump regular8 (initData regular8)) a') ∧
  lt_getKeyArray (addData [] regular8) `prefix_of`
  lt_getKeyArray (addData (addData [] regular8) golden8).
Proof.
  apply (addData_keeps_entries (addData [] regular8) golden8
           (getMatchKey regular8) (bump regular8 (initData regular8))).
  reflexivity.
Defined.

Lemma flat_map_get_fresh k a t ks :
  k ∉ ks →
  flat_map (λ k0, match lt_get k0 ((k, a) :: t) with
                  | Some a0 => if decide (hours a0 = 0) then [] else [rowOf a0]
                  | None => []
                  end) ks =
  flat_map (λ k0, match lt_get k0 t with
                  | Some a0 => if decide (hours a0 = 0) then [] else [rowOf a0]
                  | None => []
                  end) ks.
Proof.
  induction ks as [|k0 ks IH]; intros Hk; [done|].
  apply not_elem_of_cons in Hk as [Hne Hk].
  simpl. rewrite (decide_False (P := k = k0)) by done.
  f_equal. by apply IH.
Qed.

Lemma writeData_cons_fresh k a t :
  k ∉ t.*1 →
  writeData ((k, a) :: t) =
  (if decide (hours a = 0) then [] else [rowOf a]) ++ writeData t.
Proof.
  intros Hk. unfold writeData, lt_getKeyArray. rewrite fmap_cons.
  cbn [flat_map fst]. f_equal.
  - cbn [lt_get]. by rewrite (decide_True (P := k = k)).
  - by apply flat_map_get_fresh.
Qed.

Lemma nonZeroRows_cons k a t :
  nonZeroRows ((k, a) :: t) =
  (if decide (hours a = 0) then [] else [rowOf a]) ++ nonZeroRows t.
Proof.
  unfold nonZeroRows. rewrite fmap_cons, filter_cons. simpl.
  destruct (decide (hours a = 0)) as [H0|H0].
  - by rewrite decide_False by (intros Hn; by apply Hn).
  - by rewrite decide_True.
Qed.

Lemma writeData_NoDup t : NoDup t.*1 → writeData t = nonZeroRows t.
Proof.
  induction t as [|[k a] t IH]; intros Hnd; [done|].
  rewrite fmap_cons in Hnd. apply NoDup_cons in Hnd as [Hk Hnd].
  rewrite writeData_cons_fresh, nonZeroRows_cons by done. by rewrite IH.
Qed.

(** X10. In a table whose keys are distinct, [addData] leaves the keys
    distinct, and [writeData] writes the line of every entry whose hours are
    not zero, once each and in the order of the table. *)
Theorem distinct_keys_write_once t r :
  NoDup (lt_getKeyArray t) →
  NoDup (lt_getKeyArray (addData t r)) ∧
  writeData t = nonZeroRows t ∧
  writeData (addData t r) = nonZeroRows (addData t r).
Proof.
  intros Hnd. split_and!.
  - by apply NoDup_addData.
  - by apply writeData_NoDup.
  - by apply writeData_NoDup, NoDup_addData.
Qed.

Lemma distinct_keys_write_once_witness :
  NoDup (lt_getKeyArray (addData (addData [] regular8) golden8)) ∧
  writeData (addData [] regular8) = nonZeroRows (addData [] regular8) ∧
  writeData (addData (addData [] regular8) golden8) =
    nonZeroRows (addData (addData [] regular8) golden8).
Proof.
  apply (distinct_keys_write_once (addData [] regular8) golden8).
  vm_compute. apply NoDup_singleton.
Defined.

(** ** The override and the compensating record *)

(** X16. Zeroing the rate and making the compensating record can be done in
    either order, and zeroing twice is zeroing once; so the compensating
    record, which is made from the record as the override left it, is a
    record the override would not change. *)
Theorem overridden_adjRecord m r :
  adjRecord (overridden m r) = overridden m (adjRecord r) ∧
  overridden m (overridden m r) = overridden m r ∧
  overridden m (adjRecord (overridden m r)) = adjRecord (overridden m r).
Proof.
  unfold overridden. simpl.
  destruct (isBlank (m !! DISPLAY_EMPLOYEE r ≫= id)) eqn:Hb; simpl;
    rewrite ?Hb; done.
Qed.

(** ** What reaches the file *)

Lemma written_step env st r :
  written (step env st r) =
  written st ++
  (if groupingChange st r then writeData (summedRecords st) else []).
Proof.
  unfold step, tryBody, flushGroup.
  destruct (groupingChange st r); destruct (screen env r); simpl;
    by rewrite ?app_nil_r.
Qed.

Lemma written_processLoop_prefix env l : ∀ st,
  written st `prefix_of` written (processLoop env st l).
Proof.
  induction l as [|r l IH]; intros st; [done|].
  rewrite processLoop_cons. etrans; [|apply IH].
  rewrite written_step. by eexists.
Qed.

Lemma writeData_nonzero t : Forall (λ row, row_HOURS row ≠ 0) (writeData t).
Proof.
  apply Forall_forall. intros row Hrow. unfold writeData in Hrow.
  apply list_elem_of_In, in_flat_map in Hrow as (k & _ & Hrow).
  destruct (lt_get k t) as [a|]; [|by destruct Hrow].
  destruct (decide (hours a = 0)); [by destruct Hrow|].
  by destruct Hrow as [<-|[]].
Qed.

Lemma written_processLoop_Forall (P : Row → Prop) env l : ∀ st,
  (∀ t, Forall P (writeData t)) →
  Forall P (written st) → Forall P (written (processLoop env st l)).
Proof.
  induction l as [|r l IH]; intros st HP Hst; [done|].
  rewrite processLoop_cons. apply IH; [done|].
  rewrite written_step. apply Forall_app. split; [done|].
  destruct (groupingChange st r); [apply HP | constructor].
Qed.

(** X4. No line with zero hours is ever written: not in a complete run over
    a batch, and not up to any record at which the run may be cut short. *)
Theorem written_rows_nonzero env exportRecords :
  Forall (λ row, row_HOURS row ≠ 0)
         (written (processExportRecords env exportRecords)) ∧
  ∀ n, Forall (λ row, row_HOURS row ≠ 0)
              (written (processLoop env initState (take n exportRecords))).
Proof.
  assert (Hloop : ∀ l, Forall (λ row, row_HOURS row ≠ 0)
                              (written (processLoop env initState l))).
  { intros l. apply written_processLoop_Forall;
      [apply writeData_nonzero | constructor]. }
  split; [|intros n; apply Hloop].
  unfold processExportRecords, finish. simpl.
  apply Forall_app. split; [apply Hloop | apply writeData_nonzero].
Qed.

Section KeptEntries.
Variable env : Env.
Variable Q : Aggregate → Prop.
Variable batch : list Record_.
Hypothesis Q_addHours : ∀ d a, Q a → Q (addHours d a).
Hypothesis Q_addTransit : ∀ d a, Q a → Q (addTransit d a).
Hypothesis Q_primary : ∀ r r', r ∈ batch → screen env r = Keep r' →
  Q (initData r').
Hypothesis Q_compensating : ∀ r r', r ∈ batch → screen env r = Keep r' →
  inArray DOUBLE_RATE_PAY_CODES (PAY_CODE r') = true →
  Q (initData (adjRecord r')).

Lemma entries_step st r : r ∈ batch → keeps Q st → keeps Q (step env st r).
Proof using Q_addHours Q_addTransit Q_primary Q_compensating.
  intros Hr [Ht Hw].
  assert (Hf : keeps Q (flushGroup st r)).
  { unfold flushGroup. destruct (groupingChange st r); [|done].
    split; simpl; [constructor|].
    apply Forall_app. split; [done|]. by apply writeData_Forall. }
  unfold step, tryBody.
  destruct (screen env r) as [|e|r'] eqn:Hs; simpl; try done.
  destruct Hf as [Ht' Hw']. split; simpl; [|done].
  rewrite addData_eq.
  destruct (inArray DOUBLE_RATE_PAY_CODES (PAY_CODE r')) eqn:Hd.
  - apply accumulate_Forall; eauto. apply accumulate_Forall; eauto.
  - apply accumulate_Forall; eauto.
Qed.

Lemma entries_processLoop l st :
  l ⊆ batch → keeps Q st → keeps Q (processLoop env st l).
Proof using Q_addHours Q_addTransit Q_primary Q_compensating.
  revert st. induction l as [|r l IH]; intros st Hsub Hst; [done|].
  rewrite processLoop_cons. apply IH.
  - intros x Hx. apply Hsub. by right.
  - apply entries_step; [|done]. apply Hsub. by left.
Qed.

Lemma entries_written :
  Forall (λ row, ∃ a, Q a ∧ row = rowOf a)
         (written (processExportRecords env batch)).
Proof using Q_addHours Q_addTransit Q_primary Q_compensating.
  assert (Hk : keeps Q (processLoop env initState batch)).
  { apply entries_processLoop; [done|]. split; constructor. }
  destruct Hk as [Ht Hw]. unfold processExportRecords, finish. simpl.
  apply Forall_app. split; [done|]. by apply writeData_Forall.
Qed.
End KeptEntries.

(** X3. Every line of the file belongs to a record of the batch that passed
    the filter: it carries that record's employee, date, work order and job
    code, its work order starts with M or F in either case, and its pay code
    is the record's, which is an exported one, or WORKED_ALLOCATED_REG for a
    record with a double-rate pay code. A batch in which no record passes
    the filter writes nothing. *)
Theorem written_rows_accepted env exportRecords :
  Forall (λ row,
            ∃ r ld1, r ∈ exportRecords ∧
              row_EMPLID row = DISPLAY_EMPLOYEE r ∧
              row_WORK_DATE row = WORK_DT r ∧
              row_JOB_CODE row = LD8 r ∧
              row_FWO row = Some ld1 ∧ LD1 r = Some ld1 ∧ validPrefix ld1 ∧
              inArray (payCodeSet env) (PAY_CODE r) = true ∧
              (row_PAY_CODE row = PAY_CODE r ∨
               (inArray DOUBLE_RATE_PAY_CODES (PAY_CODE r) = true ∧
                row_PAY_CODE row = WORKED_ALLOCATED_REG)))
         (written (processExportRecords env exportRecords)) ∧
  (Forall (λ r, ¬ accepted env (groupFields r)) exportRecords →
   written (processExportRecords env exportRecords) = []).
Proof.
  pose (Q := λ a : Aggregate,
          ∃ r ld1, r ∈ exportRecords ∧
            emplid a = DISPLAY_EMPLOYEE r ∧ workDt a = WORK_DT r ∧
            jobCode a = LD8 r ∧
            fwo a = Some ld1 ∧ LD1 r = Some ld1 ∧ validPrefix ld1 ∧
            inArray (payCodeSet env) (PAY_CODE r) = true ∧
            (payCode a = PAY_CODE r ∨
             (inArray DOUBLE_RATE_PAY_CODES (PAY_CODE r) = true ∧
              payCode a = WORKED_ALLOCATED_REG))).
  assert (Hf : ∀ m r,
            DISPLAY_EMPLOYEE (overridden m r) = DISPLAY_EMPLOYEE r ∧
            WORK_DT (overridden m r) = WORK_DT r ∧
            LD8 (overridden m r) = LD8 r ∧ LD1 (overridden m r) = LD1 r ∧
            PAY_CODE (overridden m r) = PAY_CODE r).
  { intros m r. unfold overridden. by destruct (isBlank _). }
  assert (HQ : Forall (λ row, ∃ a, Q a ∧ row = rowOf a)
                      (written (processExportRecords env exportRecords))).
  { apply entries_written; try done.
    - intros r r' Hr Hs.
      destruct (screen_Keep_inv _ _ _ Hs) as (m & Hm & -> & Hp & ld1 & Hld & Hv).
      simpl in Hp, Hld. apply validPrefix_spec in Hv.
      destruct (Hf m r) as (He & Hd & Hj & Hl & Hpc).
      exists r, ld1. simpl. rewrite He, Hd, Hj, Hl, Hpc. split_and!; auto.
    - intros r r' Hr Hs Hdb.
      destruct (screen_Keep_inv _ _ _ Hs) as (m & Hm & -> & Hp & ld1 & Hld & Hv).
      simpl in Hp, Hld. apply validPrefix_spec in Hv.
      destruct (Hf m r) as (He & Hd & Hj & Hl & Hpc).
      rewrite Hpc in Hdb.
      exists r, ld1. simpl. rewrite He, Hd, Hj, Hl. split_and!; auto. }
  split.
  - eapply Forall_impl; [exact HQ|]. simpl.
    intros row (a & (r & ld1 & Hq) & ->). exists r, ld1. exact Hq.
  - intros Hnone.
    destruct (written (processExportRecords env exportRecords))
      as [|row rows]; [done|exfalso].
    inversion HQ as [|? ? (a & (r & ld1 & Hr & _ & _ & _ & _ & Hld & Hv & Hp & _) & _) _];
      subst.
    rewrite Forall_forall in Hnone. apply (Hnone r Hr).
    split; [done|]. exists ld1. split; [done|]. by apply validPrefix_spec.
Qed.

(** ** Counting the records *)

Lemma recordCount_step env st r :
  recordCount (step env st r) =
  (recordCount st + length (keptOf env [r]))%nat.
Proof.
  rewrite keptOf_cons. unfold step, tryBody, flushGroup.
  destruct (groupingChange st r); destruct (screen env r); simpl; lia.
Qed.

Lemma recordCount_processLoop env l : ∀ st,
  recordCount (processLoop env st l) =
  (recordCount st + length (keptOf env l))%nat.
Proof.
  induction l as [|r l IH]; intros st.
  - simpl. lia.
  - rewrite processLoop_cons, IH, recordCount_step.
    change (r :: l) with ([r] ++ l). rewrite keptOf_app, length_app. lia.
Qed.

Lemma screen_partition env l :
  (length (keptOf env l) + length (raisedOf env l) +
   length (List.filter (drops env) l))%nat = length l.
Proof.
  induction l as [|r l IH]; [done|].
  rewrite keptOf_cons, raisedOf_cons. simpl. unfold drops at 1.
  destruct (screen env r); simpl; lia.
Qed.

(** X15. The record counter ends at the number of records handed to the
    table; every record of the batch is either counted, or rolled back, or
    left out by the filter, and never two of these. *)
Theorem record_accounting env exportRecords :
  recordCount (processExportRecords env exportRecords) =
    length (keptOf env exportRecords) ∧
  (recordCount (processExportRecords env exportRecords) +
   length (rolledBack (processExportRecords env exportRecords)) +
   length (List.filter (drops env) exportRecords))%nat =
    length exportRecords ∧
  (∀ r, drops env r && raises env r = false ∧
        (drops env r || raises env r = true ↔ keptOf env [r] = [])).
Proof.
  assert (Hc : recordCount (processExportRecords env exportRecords) =
               length (keptOf env exportRecords)).
  { unfold processExportRecords, finish. simpl.
    by rewrite recordCount_processLoop. }
  assert (Hr : rolledBack (processExportRecords env exportRecords) =
               raisedOf env exportRecords).
  { unfold processExportRecords, finish. simpl.
    by rewrite rolledBack_processLoop. }
  split_and!; [done| |].
  - rewrite Hc, Hr. apply screen_partition.
  - intros r. rewrite keptOf_cons. unfold drops, raises.
    destruct (screen env r); simpl; split; try done; split; done.
Qed.

(** ** The run as [main] starts it *)

Lemma main_runExport h : main h = runExport (globalsOf h) h.
Proof. reflexivity. Qed.

Lemma raises_globalsOf h r :
  raises (globalsOf h) r = lacksWorkOrder (h_payCodes h) r.
Proof.
  unfold raises, lacksWorkOrder, screen, isUnionCodeNull. simpl.
  destruct (inArray (h_payCodes h) (PAY_CODE r)); simpl; [|done].
  destruct (LD1 r) as [ld1|]; [|done].
  rewrite bool_decide_eq_false_2 by done.
  by destruct (inArray VALID_FWO_PREFIXES (firstCharUpper ld1)).
Qed.

(** X13. In a run started by [main] that gets its batch and is not aborted,
    the union-code map is always there, so [isUnionCodeNull] never fails; the
    records rolled back one by one are exactly those with an exported pay
    code and no work order, and no error reaches the handler of [main]. *)
Theorem main_rolls_back_missing_work_orders h exportRecords :
  h_batch h = Some exportRecords →
  h_abortAt h = None →
  (∀ e, ∃ b, isUnionCodeNull (globalsOf h) e = inr b) ∧
  run_state (main h) = processExportRecords (globalsOf h) exportRecords ∧
  rolledBack (run_state (main h)) =
    List.filter (lacksWorkOrder (h_payCodes h)) exportRecords ∧
  run_caught (main h) = None ∧
  run_writerClosed (main h) = true.
Proof.
  intros Hb Ha.
  assert (Hrun : main h =
                 mkRunResult (processExportRecords (globalsOf h) exportRecords)
                             None false true None).
  { rewrite main_runExport. unfold runExport, processExportRecordsOn.
    by rewrite Hb, Ha. }
  rewrite Hrun. cbn [run_state run_caught run_writerClosed].
  split_and!; try done.
  - intros e. by eexists.
  - unfold processExportRecords, finish. simpl.
    rewrite rolledBack_processLoop. simpl. unfold raisedOf.
    apply filter_ext. intros r. apply raises_globalsOf.
Qed.

Lemma main_rolls_back_missing_work_orders_witness :
  (∀ e, ∃ b, isUnionCodeNull (globalsOf workOrderHost) e = inr b) ∧
  run_state (main workOrderHost) =
    processExportRecords (globalsOf workOrderHost)
                         [regular8; noWorkOrder8; unlisted8] ∧
  rolledBack (run_state (main workOrderHost)) =
    List.filter (lacksWorkOrder (h_payCodes workOrderHost))
                [regular8; noWorkOrder8; unlisted8] ∧
  run_caught (main workOrderHost) = None ∧
  run_writerClosed (main workOrderHost) = true.
Proof.
  apply (main_rolls_back_missing_work_orders workOrderHost
           [regular8; noWorkOrder8; unlisted8]); reflexivity.
Defined.

(** X14. When an abort request is seen at a record of the batch, the error
    reaches the handler of [main] and the writer is closed; the records from
    that one on are not read; what has been written is the beginning of what
    the complete run would write, and the records rolled back one by one and
    those counted are those of the part that was read. *)
Theorem abort_keeps_prefix h exportRecords n :
  h_batch h = Some exportRecords →
  h_abortAt h = Some n →
  (n < length exportRecords)%nat →
  run_caught (main h) = Some "abort requested" ∧
  run_writerClosed (main h) = true ∧
  run_state (main h) =
    processLoop (globalsOf h) initState (take n exportRecords) ∧
  written (run_state (main h)) `prefix_of`
    written (processExportRecords (globalsOf h) exportRecords) ∧
  rolledBack (run_state (main h)) =
    raisedOf (globalsOf h) (take n exportRecords) ∧
  recordCount (run_state (main h)) =
    length (keptOf (globalsOf h) (take n exportRecords)).
Proof.
  intros Hb Ha Hn.
  assert (Hrun : main h =
            mkRunResult (processLoop (globalsOf h) initState
                                     (take n exportRecords))
                        (Some "abort requested") false true
                        (Some "ReferenceError: exportBatchId is not defined")).
  { rewrite main_runExport. unfold runExport, processExportRecordsOn.
    rewrite Hb, Ha. by rewrite (proj2 (Nat.ltb_lt _ _) Hn). }
  rewrite Hrun. cbn [run_state run_caught run_writerClosed].
  split_and!; try done.
  - rewrite <- (take_drop n exportRecords) at 2.
    unfold processExportRecords. rewrite processLoop_app.
    etrans; [apply written_processLoop_prefix|].
    unfold finish. simpl. by eexists.
  - by rewrite rolledBack_processLoop.
  - by rewrite recordCount_processLoop.
Qed.

Lemma abort_keeps_prefix_witness :
  run_caught (main abortingHost) = Some "abort requested" ∧
  run_writerClosed (main abortingHost) = true ∧
  run_state (main abortingHost) =
    processLoop (globalsOf abortingHost) initState
      (take 2 [golden8; regular8; regularMinus3; unlisted8]) ∧
  written (run_state (main abortingHost)) `prefix_of`
    written (processExportRecords (globalsOf abortingHost)
               [golden8; regular8; regularMinus3; unlisted8]) ∧
  rolledBack (run_state (main abortingHost)) =
    raisedOf (globalsOf abortingHost)
      (take 2 [golden8; regular8; regularMinus3; unlisted8]) ∧
  recordCount (run_state (main abortingHost)) =
    length (keptOf (globalsOf abortingHost)
              (take 2 [golden8; regular8; regularMinus3; unlisted8])).
Proof.
  apply (abort_keeps_prefix abortingHost
           [golden8; regular8; regularMinus3; unlisted8] 2).
  - reflexivity.
  - reflexivity.
  - simpl. lia.
Defined.

(** ** The records of one group share their fate *)

Lemma screen_group env r1 r2 :
  groupFields r1 = groupFields r2 →
  match screen env r1, screen env r2 with
  | Drop, Drop => True
  | Raise e1, Raise e2 => e1 = e2
  | Keep _, Keep _ => True
  | _, _ => False
  end.
Proof.
  destruct r1 as [e1 d1 l1 p1 x1 j1 h1 u1], r2 as [e2 d2 l2 p2 x2 j2 h2 u2].
  unfold groupFields, screen, isUnionCodeNull. simpl.
  intros [= -> -> -> -> -> ->].
  destruct (inArray (payCodeSet env) _); simpl; [|done].
  destruct l2 as [ld1|]; [|done].
  destruct (inArray VALID_FWO_PREFIXES _); simpl; [|done].
  by destruct (unionCodeMap env).
Qed.

Lemma dropped_all env run :
  Forall (λ r, drops env r = true) run →
  keptOf env run = [] ∧ raisedOf env run = [].
Proof.
  induction 1 as [|r run Hr _ [IH1 IH2]]; [done|].
  rewrite keptOf_cons, raisedOf_cons. unfold drops in Hr.
  by destruct (screen env r).
Qed.

Lemma uniform_run_cases env g run :
  Forall (λ r, groupFields r = g) run →
  (∃ m, unionCodeMap env = Some m ∧ accepted env g ∧
        keptOf env run = overridden m <$> run ∧ raisedOf env run = []) ∨
  (keptOf env run = [] ∧ raisedOf env run = run) ∨
  (keptOf env run = [] ∧ raisedOf env run = [] ∧
   Forall (λ r, drops env r = true) run).
Proof.
  intros HF. destruct run as [|r run].
  { right. right. by repeat split. }
  assert (Hg : groupFields r = g) by by inversion HF.
  assert (Hsame : ∀ r0, r0 ∈ r :: run → groupFields r = groupFields r0).
  { rewrite Forall_forall in HF. intros r0 Hr0. by rewrite (HF r0 Hr0). }
  destruct (screen env r) as [|e|r'] eqn:Hs.
  - right. right.
    assert (Hall : Forall (λ r0, drops env r0 = true) (r :: run)).
    { apply Forall_forall. intros r0 Hr0.
      pose proof (screen_group env r r0 (Hsame r0 Hr0)) as Hk.
      rewrite Hs in Hk. unfold drops. by destruct (screen env r0). }
    destruct (dropped_all env _ Hall). by repeat split.
  - right. left.
    assert (Hall : Forall (λ r0, raises env r0 = true) (r :: run)).
    { apply Forall_forall. intros r0 Hr0.
      pose proof (screen_group env r r0 (Hsame r0 Hr0)) as Hk.
      rewrite Hs in Hk. unfold raises. by destruct (screen env r0). }
    by destruct (raisedOf_all env _ Hall).
  - left. apply screen_Keep_inv in Hs as (m & Hm & _ & Ha).
    rewrite Hg in Ha. exists m.
    destruct (keptOf_accepted env m g (r :: run) Hm Ha HF). by split_and!.
Qed.

(** X7. The records of a run that share the six group fields share their
    fate: either all of them are handed to the table, or all of them fail
    and are rolled back, or all of them are left out by the filter. A group
    is never exported in part. *)
Theorem group_all_or_nothing env g run :
  Forall (λ r, groupFields r = g) run →
  (length (keptOf env run) = length run ∧ raisedOf env run = [] ∧
   List.filter (drops env) run = []) ∨
  (keptOf env run = [] ∧ raisedOf env run = run ∧
   List.filter (drops env) run = []) ∨
  (keptOf env run = [] ∧ raisedOf env run = [] ∧
   List.filter (drops env) run = run).
Proof.
  intros HF.
  pose proof (screen_partition env run) as Hpart.
  assert (Hfull : ∀ (f : Record_ → bool) l,
            length (List.filter f l) = length l → List.filter f l = l).
  { intros f l. induction l as [|x l IH]; [done|]. simpl.
    pose proof (filter_length_le f l).
    destruct (f x); simpl; intros Hl; [f_equal; apply IH|]; lia. }
  destruct (uniform_run_cases env g run HF)
    as [(m & _ & _ & Hk & Hr)|[[Hk Hr]|(Hk & Hr & Hd)]].
  - left. rewrite Hk, Hr, length_fmap in *. split_and!; try done.
    apply length_zero_iff_nil. simpl in Hpart. lia.
  - right. left. rewrite Hk, Hr in *. split_and!; try done.
    apply length_zero_iff_nil. simpl in Hpart. lia.
  - right. right. rewrite Hk, Hr in *. split_and!; try done.
    apply Hfull. simpl in Hpart. lia.
Qed.

Lemma group_all_or_nothing_witness :
  (length (keptOf sampleEnv [regular8; regularMinus3]) =
     length [regular8; regularMinus3] ∧
   raisedOf sampleEnv [regular8; regularMinus3] = [] ∧
   List.filter (drops sampleEnv) [regular8; regularMinus3] = []) ∨
  (keptOf sampleEnv [regular8; regularMinus3] = [] ∧
   raisedOf sampleEnv [regular8; regularMinus3] = [regular8; regularMinus3] ∧
   List.filter (drops sampleEnv) [regular8; regularMinus3] = []) ∨
  (keptOf sampleEnv [regular8; regularMinus3] = [] ∧
   raisedOf sampleEnv [regular8; regularMinus3] = [] ∧
   List.filter (drops sampleEnv) [regular8; regularMinus3] =
     [regular8; regularMinus3]).
Proof.
  apply (group_all_or_nothing sampleEnv (groupFields regular8)
           [regular8; regularMinus3]).
  repeat constructor.
Defined.

(** ** The batch as a sequence of runs *)

Lemma boundary_single r r' l :
  groupFields r ≠ groupFields r' → boundary [r] (r' :: l).
Proof.
  intros Hne g Hl Hh. apply Hne.
  change (Some (groupFields r) = Some g) in Hl.
  change (Some (groupFields r') = Some g) in Hh. congruence.
Qed.

Lemma groupRuns_chained l : chained (groupRuns l) ∧ concat (groupRuns l) = l.
Proof.
  induction l as [|r l [IHc IHl]]; [done|].
  simpl groupRuns. destruct (groupRuns l) as [|[|r' run] runs].
  - simpl in IHl. subst l. split; [|done]. simpl. split_and!; try done.
    exists (groupFields r). by repeat constructor.
  - by destruct IHc as [Hne _].
  - destruct IHc as (_ & (g & HF) & Hb & Hc). simpl in IHl.
    destruct (decide (groupFields r = groupFields r')) as [Heq|Hneq].
    + split; [|simpl; by rewrite IHl]. simpl. split_and!; try done.
      exists g. constructor; [|done]. rewrite Heq. by inversion HF.
    + split; [|simpl; by rewrite IHl]. simpl. split_and!; try done.
      * exists (groupFields r). by repeat constructor.
      * by apply boundary_single.
      * by exists g.
Qed.

Lemma written_chained env runs :
  chained runs →
  written (processExportRecords env (concat runs)) =
  concat (summarise env <$> runs).
Proof.
  induction runs as [|run runs IH]; [done|].
  intros (Hne & (g & HF) & Hb & Hc). simpl concat.
  destruct (processExportRecords_split env run (concat runs) Hb) as (-> & _).
  rewrite IH by done.
  rewrite (processExportRecords_run env run g) by done. reflexivity.
Qed.

(** X1. What the loop writes with its one running table is what is got by
    cutting the batch into its maximal runs of equal group fields, summing
    the kept records of each run into a table of its own, and writing these
    tables one after the other. *)
Theorem written_by_runs env exportRecords :
  concat (groupRuns exportRecords) = exportRecords ∧
  chained (groupRuns exportRecords) ∧
  written (processExportRecords env exportRecords) =
    concat (summarise env <$> groupRuns exportRecords).
Proof.
  destruct (groupRuns_chained exportRecords) as [Hc Hl].
  split_and!; try done.
  rewrite <- Hl at 1. by apply written_chained.
Qed.

(** * The pipeline over JavaScript numbers: its properties *)

Import Stdlib.Floats.Floats.
Import Binary64.

(** ** Numbers *)

(** Numbers that are [==] are the same number or the two zeros. *)
Lemma eqb_cases x y :
  PrimFloat.eqb x y = true →
  Prim2SF x = Prim2SF y ∨
  ∃ s1 s2, Prim2SF x = S754_zero s1 ∧ Prim2SF y = S754_zero s2.
Proof.
  rewrite eqb_spec. unfold SFeqb, SFcompare.
  destruct (Prim2SF x) as [s1|s1| |s1 m1 e1], (Prim2SF y) as [s2|s2| |s2 m2 e2];
    intros H; try discriminate H.
  - right. eauto.
  - destruct s2; discriminate H.
  - destruct s2; discriminate H.
  - destruct s1; discriminate H.
  - left. destruct s1, s2; (discriminate H || reflexivity).
  - destruct s1; discriminate H.
  - destruct s1; discriminate H.
  - destruct s2; discriminate H.
  - left. destruct s1, s2; try discriminate H;
      (destruct (Z.compare e1 e2) eqn:He; try discriminate H;
       apply Z.compare_eq in He; subst e2;
       destruct (Pos.compare_cont Eq m1 m2) eqn:Hm; try discriminate H;
       apply Pos.compare_eq in Hm; subst m2; reflexivity).
Qed.

(** Numbers that are [==] have the same text: the two zeros print alike. *)
Lemma showNumber_eqb x y :
  PrimFloat.eqb x y = true → showNumber x = showNumber y.
Proof.
  intros [H|(s1 & s2 & H1 & H2)]%eqb_cases; unfold showNumber.
  - by rewrite H.
  - by rewrite H1, H2.
Qed.

(** Twice the zero rate is the zero rate. *)
Lemma double_zero : (2 * 0)%float = 0%float.
Proof. reflexivity. Qed.

(** ** The table *)

Lemma addData_eq64 t r :
  addData t r =
  if inArray DOUBLE_RATE_PAY_CODES (PAY_CODE r)
  then accumulate (accumulate t r) (adjRecord r)
  else accumulate t r.
Proof.
  funelim (addData t r).
  - rewrite H, Hd. reflexivity.
  - rewrite Hd. reflexivity.
Qed.

Lemma lt_containsKey_ne64 k k' a t :
  k' ≠ k → lt_containsKey k ((k', a) :: t) = lt_containsKey k t.
Proof.
  intros Hne. unfold lt_containsKey. simpl.
  destruct (decide (k' = k)); [done | reflexivity].
Qed.

Lemma lt_containsKey_eq64 k a t : lt_containsKey k ((k, a) :: t) = true.
Proof.
  unfold lt_containsKey. simpl. rewrite decide_True by done.
  apply bool_decide_eq_true. eauto.
Qed.

Lemma accumulate_nil64 r :
  accumulate [] r = [(getMatchKey r, bump r (initData r))].
Proof.
  unfold accumulate, lt_set. simpl.
  rewrite decide_True by done. simpl. by rewrite decide_True by done.
Qed.

Lemma accumulate_hit64 k a t r :
  getMatchKey r = k → accumulate ((k, a) :: t) r = (k, bump r a) :: t.
Proof.
  intros <-. unfold accumulate. rewrite lt_containsKey_eq64. simpl.
  rewrite decide_True by done. simpl. by rewrite decide_True by done.
Qed.

Lemma accumulate_miss64 k a t r :
  k ≠ getMatchKey r → accumulate ((k, a) :: t) r = (k, a) :: accumulate t r.
Proof.
  intros Hne. unfold accumulate. rewrite lt_containsKey_ne64 by done.
  destruct (lt_containsKey (getMatchKey r) t) eqn:Hc.
  - simpl. rewrite decide_False by done. simpl. by rewrite decide_False by done.
  - unfold lt_set. rewrite lt_containsKey_ne64 by done. rewrite Hc. simpl.
    rewrite decide_False by done. simpl. by rewrite decide_False by done.
Qed.

Lemma lt_get_accumulate64 k t r :
  lt_get k (accumulate t r) =
  if decide (k = getMatchKey r)
  then Some (bump r (default (initData r) (lt_get k t)))
  else lt_get k t.
Proof.
  induction t as [|[k' a] t IH].
  - rewrite accumulate_nil64. simpl.
    destruct (decide (getMatchKey r = k)) as [<-|Hne].
    + by rewrite decide_True by done.
    + by rewrite decide_False by done.
  - destruct (decide (k' = getMatchKey r)) as [->|Hne].
    + rewrite accumulate_hit64 by done. simpl.
      destruct (decide (getMatchKey r = k)) as [<-|Hne].
      * by rewrite decide_True by done.
      * by rewrite decide_False by done.
    + rewrite accumulate_miss64 by done. simpl.
      destruct (decide (k' = k)) as [->|Hne'].
      * by rewrite decide_False by done.
      * apply IH.
Qed.

Lemma accumulate_Forall64 (Q : Aggregate → Prop) t r :
  (∀ d a, Q a → Q (addHours d a)) →
  (∀ d a, Q a → Q (addTransit d a)) →
  Q (initData r) →
  Forall (λ ka, Q ka.2) t →
  Forall (λ ka, Q ka.2) (accumulate t r).
Proof.
  intros Hh Ht Hi. induction t as [|[k a] t IH]; intros HF.
  - rewrite accumulate_nil64. constructor; [|constructor].
    simpl. unfold bump. by apply Ht, Hh.
  - inversion HF as [|? ? Ha HF']; subst.
    destruct (decide (k = getMatchKey r)) as [->|Hne].
    + rewrite accumulate_hit64 by done. constructor; [|done].
      simpl. unfold bump. by apply Ht, Hh.
    + rewrite accumulate_miss64 by done. constructor; [done|]. by apply IH.
Qed.

Lemma writeData_rows64 t row :
  row ∈ writeData t → ∃ ka, ka ∈ t ∧ row = rowOf ka.2.
Proof.
  unfold writeData, lt_getKeyArray. intros Hin.
  apply list_elem_of_In, in_flat_map in Hin as (k & _ & Hrow).
  destruct (lt_get k t) as [a|] eqn:Hget; [|by destruct Hrow].
  destruct (PrimFloat.eqb (hours a) 0); [by destruct Hrow|].
  destruct Hrow as [<-|[]].
  exists (k, a). split; [|done].
  clear -Hget. induction t as [|[k' a'] t IH]; [done|].
  simpl in Hget. destruct (decide (k' = k)) as [->|].
  - injection Hget as ->. left.
  - right. by apply IH.
Qed.

Lemma writeData_single64 k a : writeData [(k, a)] = rowsOf [a].
Proof.
  unfold writeData, rowsOf. simpl. rewrite decide_True by done.
  reflexivity.
Qed.

Lemma writeData_pair64 k kc a c :
  k ≠ kc → writeData [(k, a); (kc, c)] = rowsOf [a; c].
Proof.
  intros Hne. unfold writeData, rowsOf. simpl.
  rewrite (decide_True (P := k = k)) by done.
  rewrite (decide_False (P := k = kc)) by done.
  rewrite (decide_True (P := kc = kc)) by done.
  reflexivity.
Qed.

(** ** Match keys *)

Lemma getMatchKey_adjRecord_ne64 r :
  inArray DOUBLE_RATE_PAY_CODES (PAY_CODE r) = true →
  getMatchKey r ≠ getMatchKey (adjRecord r).
Proof.
  intros Hd Heq. unfold getMatchKey in Heq. simpl in Heq.
  do 7 apply (inj (String.app _)) in Heq.
  apply string_app_inv_tail in Heq.
  rewrite Heq in Hd. by rewrite WORKED_ALLOCATED_REG_not_double in Hd.
Qed.

Lemma sameGroup_inv r c :
  sameGroup r c = true →
  DISPLAY_EMPLOYEE r = g_DISPLAY_EMPLOYEE c ∧ WORK_DT r = g_WORK_DT c ∧
  LD1 r = g_LD1 c ∧ PAY_CODE r = g_PAY_CODE c ∧
  PrimFloat.eqb (EFF_RATE r) (g_EFF_RATE c) = true ∧ LD8 r = g_LD8 c.
Proof.
  unfold sameGroup. rewrite !andb_true_iff, !bool_decide_eq_true. tauto.
Qed.

(** The records of a group reach the table under the key of the record that
    started the group, and so do their compensating records. *)
Lemma getMatchKey_sameGroup m r r0 :
  sameGroup r (groupFields r0) = true →
  getMatchKey (overridden m r) = getMatchKey (overridden m r0) ∧
  getMatchKey (adjRecord (overridden m r)) =
    getMatchKey (adjRecord (overridden m r0)) ∧
  PAY_CODE (overridden m r) = PAY_CODE r0.
Proof.
  intros (He & Hw & Hl & Hp & Hr & Hj)%sameGroup_inv. simpl in *.
  unfold overridden. rewrite He.
  destruct (unionCodeBlank m (DISPLAY_EMPLOYEE r0));
    unfold getMatchKey, adjRecord, zeroRate;
    cbn [DISPLAY_EMPLOYEE WORK_DT LD1 PAY_CODE EFF_RATE LD8];
    rewrite He, Hw, Hl, Hp, Hj.
  - done.
  - by rewrite (showNumber_eqb _ _ Hr).
Qed.

Lemma sameGroup_refl_fields m r0 :
  PAY_CODE (overridden m r0) = PAY_CODE r0 ∧
  LD1 (overridden m r0) = LD1 r0 ∧
  DISPLAY_EMPLOYEE (overridden m r0) = DISPLAY_EMPLOYEE r0 ∧
  WORK_DT (overridden m r0) = WORK_DT r0 ∧
  LD8 (overridden m r0) = LD8 r0 ∧
  HOURS (overridden m r0) = HOURS r0 ∧
  UNIT9 (overridden m r0) = UNIT9 r0 ∧
  EFF_RATE (overridden m r0) = effectiveRate m r0.
Proof.
  unfold overridden, effectiveRate.
  by destruct (unionCodeBlank m (DISPLAY_EMPLOYEE r0)).
Qed.

(** ** The loop *)

Lemma processLoop_cons64 env st r l :
  processLoop env st (r :: l) = processLoop env (step env st r) l.
Proof. reflexivity. Qed.

Lemma processLoop_app64 env st l1 l2 :
  processLoop env st (l1 ++ l2) = processLoop env (processLoop env st l1) l2.
Proof. apply fold_left_app. Qed.

Lemma curData_step64 env st r :
  curData (step env st r) =
  if differs (curData st) r then Some (groupFields r) else curData st.
Proof.
  unfold step, tryBody, flushGroup, groupingChange.
  by destruct (differs (curData st) r), (screen env r).
Qed.

Lemma curData_processLoop64 env l : ∀ st,
  curData (processLoop env st l) = currentGroupFrom (curData st) l.
Proof.
  induction l as [|r l IH]; intros st; [reflexivity|].
  rewrite processLoop_cons64, IH, curData_step64. reflexivity.
Qed.

Lemma step_shift64 env w rb n st r :
  step env (shift w rb n st) r = shift w rb n (step env st r).
Proof.
  unfold step, tryBody, flushGroup, groupingChange, shift. simpl.
  destruct (differs (curData st) r), (screen env r); simpl; f_equal;
    rewrite <- ?app_assoc; try reflexivity; lia.
Qed.

Lemma processLoop_shift64 env w rb n st l :
  processLoop env (shift w rb n st) l = shift w rb n (processLoop env st l).
Proof.
  revert st. induction l as [|r l IH]; intros st; [reflexivity|].
  simpl. rewrite step_shift64. apply IH.
Qed.

Lemma finish_shift64 w rb n st :
  finish (shift w rb n st) = shift w rb n (finish st).
Proof. unfold finish, shift. simpl. f_equal. by rewrite app_assoc. Qed.

(** A record that starts a group: what the table held is written, and the
    loop goes on as if it started at this record. *)
Lemma step_new_group64 env st r :
  groupingChange st r = true →
  step env st r =
  shift (written st ++ writeData (summedRecords st)) (rolledBack st)
        (recordCount st) (step env initState r).
Proof.
  intros Hc. unfold step, tryBody, flushGroup, shift. rewrite Hc.
  unfold groupingChange. simpl.
  destruct (screen env r); simpl; f_equal;
    rewrite ?app_nil_r; try reflexivity; lia.
Qed.

Lemma processLoop_new_group64 env l1 r l2 :
  startsGroup l1 r →
  processLoop env initState (l1 ++ r :: l2) =
  shift (written (processExportRecords env l1))
        (rolledBack (processExportRecords env l1))
        (recordCount (processExportRecords env l1))
        (processLoop env initState (r :: l2)).
Proof.
  intros Hs. rewrite processLoop_app64, processLoop_cons64.
  rewrite step_new_group64.
  - rewrite processLoop_shift64. reflexivity.
  - unfold groupingChange. by rewrite curData_processLoop64.
Qed.

(** A batch cut where a group starts is the two parts run one after the
    other. *)
Lemma written_split64 env l1 r l2 :
  startsGroup l1 r →
  written (processExportRecords env (l1 ++ r :: l2)) =
  written (processExportRecords env l1) ++
  written (processExportRecords env (r :: l2)).
Proof.
  intros Hs. unfold processExportRecords at 1.
  rewrite processLoop_new_group64 by done.
  rewrite finish_shift64. reflexivity.
Qed.

(** ** A run of one group *)

Lemma screen_accepted64 env m r :
  unionCodeMap env = Some m →
  accepted env r →
  screen env r = Keep (overridden m r).
Proof.
  intros Hm [Hp (ld1 & Hld & Hpre)].
  unfold screen, isUnionCodeNull. rewrite Hp, Hld, Hpre, Hm. reflexivity.
Qed.

Lemma accepted_sameGroup env r r0 :
  accepted env r0 → sameGroup r (groupFields r0) = true → accepted env r.
Proof.
  intros [Hp Hl] (_ & _ & Hl' & Hp' & _)%sameGroup_inv. simpl in *.
  unfold accepted. by rewrite Hl', Hp'.
Qed.

Lemma currentGroup_same c rest :
  Forall (λ r, sameGroup r c = true) rest →
  currentGroupFrom (Some c) rest = Some c.
Proof.
  induction 1 as [|r rest Hr _ IH]; [reflexivity|].
  simpl. by rewrite Hr.
Qed.

Lemma currentGroup_run pre r0 rest :
  startsGroup pre r0 →
  Forall (λ r, sameGroup r (groupFields r0) = true) rest →
  currentGroup (pre ++ r0 :: rest) = Some (groupFields r0).
Proof.
  intros Hs HF. unfold currentGroup, currentGroupFrom.
  rewrite fold_left_app. simpl. unfold startsGroup, currentGroup, currentGroupFrom in Hs.
  rewrite Hs. by apply currentGroup_same.
Qed.

Lemma processLoop_same_group64 env m c rest : ∀ st,
  unionCodeMap env = Some m →
  curData st = Some c →
  Forall (λ r, sameGroup r c = true ∧ accepted env r) rest →
  processLoop env st rest =
  mkState (Some c) (fold_left addData (overridden m <$> rest) (summedRecords st))
          (written st) (rolledBack st) (recordCount st + length rest).
Proof.
  induction rest as [|r rest IH]; intros st Hm Hc HF.
  - simpl. rewrite Nat.add_0_r. destruct st; simpl in *. by subst.
  - inversion HF as [|? ? [Hr Ha] HF']; subst.
    rewrite processLoop_cons64. rewrite IH; try done.
    + unfold step, tryBody, flushGroup, groupingChange. rewrite Hc. simpl.
      rewrite Hr. simpl. rewrite (screen_accepted64 env m r) by done. simpl.
      f_equal. lia.
    + rewrite curData_step64, Hc. simpl. by rewrite Hr.
Qed.

Lemma processLoop_run64 env m r0 rest :
  unionCodeMap env = Some m →
  accepted env r0 →
  Forall (λ r, sameGroup r (groupFields r0) = true) rest →
  processLoop env initState (r0 :: rest) =
  mkState (Some (groupFields r0))
          (fold_left addData (overridden m <$> (r0 :: rest)) [])
          [] [] (S (length rest)).
Proof.
  intros Hm Ha HF. rewrite processLoop_cons64.
  rewrite (processLoop_same_group64 env m (groupFields r0)); try done.
  - unfold step, tryBody. simpl.
    rewrite (screen_accepted64 env m r0) by done. reflexivity.
  - rewrite curData_step64. reflexivity.
  - eapply Forall_impl; [exact HF|]. intros r Hr. split; [done|].
    by apply (accepted_sameGroup env r r0).
Qed.

(** ** Folding a run into the table *)

(** The entry [a] after the records [run] were added to it, one after the
    other. *)
Lemma fold_addData_plain64 run : ∀ k a,
  Forall (λ r, getMatchKey r = k ∧
               inArray DOUBLE_RATE_PAY_CODES (PAY_CODE r) = false) run →
  fold_left addData run [(k, a)] =
  [(k, mkAggregate (fwo a) (emplid a) (workDt a) (payCode a) (rate a)
         (jobCode a) (transitHoursFrom (inTransit a) run)
         (netHoursFrom (hours a) run))].
Proof.
  induction run as [|r run IH]; intros k a HF.
  - by destruct a.
  - inversion HF as [|? ? [Hk Hd] HF']; subst.
    simpl. rewrite addData_eq64, Hd, accumulate_hit64 by done.
    rewrite IH by done. reflexivity.
Qed.

Lemma fold_addData_double64 run : ∀ k kc a c,
  k ≠ kc →
  Forall (λ r, getMatchKey r = k ∧ getMatchKey (adjRecord r) = kc ∧
               inArray DOUBLE_RATE_PAY_CODES (PAY_CODE r) = true) run →
  fold_left addData run [(k, a); (kc, c)] =
  [(k, mkAggregate (fwo a) (emplid a) (workDt a) (payCode a) (rate a)
         (jobCode a) (transitHoursFrom (inTransit a) run)
         (netHoursFrom (hours a) run));
   (kc, mkAggregate (fwo c) (emplid c) (workDt c) (payCode c) (rate c)
          (jobCode c) (transitHoursFrom (inTransit c) (adjRecord <$> run))
          (netHoursFrom (hours c) (adjRecord <$> run)))].
Proof.
  induction run as [|r run IH]; intros k kc a c Hne HF.
  - by destruct a, c.
  - inversion HF as [|? ? (Hk & Hkc & Hd) HF']; subst.
    simpl. rewrite addData_eq64, Hd, accumulate_hit64 by done.
    rewrite accumulate_miss64 by done.
    rewrite accumulate_hit64 by done.
    rewrite IH by done. reflexivity.
Qed.

(** The override leaves hours and transit as they are. *)
Lemma netHoursFrom_overridden m run : ∀ h,
  netHoursFrom h (overridden m <$> run) = netHoursFrom h run.
Proof.
  induction run as [|r run IH]; intros h; [reflexivity|].
  simpl. rewrite IH.
  destruct (sameGroup_refl_fields m r) as (_ & _ & _ & _ & _ & -> & -> & _).
  reflexivity.
Qed.

Lemma transitHoursFrom_overridden m run : ∀ t,
  transitHoursFrom t (overridden m <$> run) = transitHoursFrom t run.
Proof.
  induction run as [|r run IH]; intros t; [reflexivity|].
  simpl. rewrite IH.
  destruct (sameGroup_refl_fields m r) as (_ & _ & _ & _ & _ & _ & -> & _).
  reflexivity.
Qed.

Lemma netHoursFrom_adj_overridden m run : ∀ h,
  netHoursFrom h (adjRecord <$> (overridden m <$> run)) =
  netHoursFrom h (adjRecord <$> run).
Proof.
  induction run as [|r run IH]; intros h; [reflexivity|].
  simpl. rewrite IH.
  destruct (sameGroup_refl_fields m r) as (_ & _ & _ & _ & _ & -> & -> & _).
  reflexivity.
Qed.

Lemma transitHoursFrom_adj_overridden m run : ∀ t,
  transitHoursFrom t (adjRecord <$> (overridden m <$> run)) =
  transitHoursFrom t (adjRecord <$> run).
Proof.
  induction run as [|r run IH]; intros t; [reflexivity|].
  simpl. rewrite IH.
  destruct (sameGroup_refl_fields m r) as (_ & _ & _ & _ & _ & _ & -> & _).
  reflexivity.
Qed.

(** ** The table and the lines of one run *)

Lemma table_plain_run64 m r0 rest :
  inArray DOUBLE_RATE_PAY_CODES (PAY_CODE r0) = false →
  Forall (λ r, sameGroup r (groupFields r0) = true) rest →
  fold_left addData (overridden m <$> (r0 :: rest)) [] =
  [(getMatchKey (overridden m r0),
    runEntry r0 (PAY_CODE r0) (effectiveRate m r0) (r0 :: rest))].
Proof.
  intros Hd HF.
  destruct (sameGroup_refl_fields m r0)
    as (Hp0 & Hl0 & He0 & Hw0 & Hj0 & Hh0 & Hu0 & Hr0).
  rewrite fmap_cons. cbn [fold_left].
  rewrite addData_eq64, Hp0, Hd, accumulate_nil64.
  rewrite fold_addData_plain64.
  - rewrite netHoursFrom_overridden, transitHoursFrom_overridden.
    unfold runEntry, bump, addTransit, addHours, initData.
    cbn [fwo emplid workDt payCode rate jobCode inTransit hours].
    rewrite Hp0, Hd, Hl0, He0, Hw0, Hj0, Hh0, Hu0, Hr0. reflexivity.
  - apply Forall_fmap. eapply Forall_impl; [exact HF|].
    intros r Hr. simpl.
    destruct (getMatchKey_sameGroup m r r0 Hr) as (Hk & _ & Hp).
    split; [done|]. by rewrite Hp.
Qed.

Lemma table_double_run64 m r0 rest :
  inArray DOUBLE_RATE_PAY_CODES (PAY_CODE r0) = true →
  Forall (λ r, sameGroup r (groupFields r0) = true) rest →
  fold_left addData (overridden m <$> (r0 :: rest)) [] =
  [(getMatchKey (overridden m r0),
    runEntry r0 (PAY_CODE r0) (2 * effectiveRate m r0)%float (r0 :: rest));
   (getMatchKey (adjRecord (overridden m r0)),
    runEntry r0 WORKED_ALLOCATED_REG (effectiveRate m r0)
             (adjRecord <$> (r0 :: rest)))].
Proof.
  intros Hd HF.
  destruct (sameGroup_refl_fields m r0)
    as (Hp0 & Hl0 & He0 & Hw0 & Hj0 & Hh0 & Hu0 & Hr0).
  assert (Hd' : inArray DOUBLE_RATE_PAY_CODES (PAY_CODE (overridden m r0)) = true)
    by by rewrite Hp0.
  pose proof (getMatchKey_adjRecord_ne64 _ Hd') as Hne.
  rewrite fmap_cons. cbn [fold_left].
  rewrite addData_eq64, Hd', accumulate_nil64.
  rewrite accumulate_miss64 by done. rewrite accumulate_nil64.
  rewrite fold_addData_double64; [|done|].
  - rewrite netHoursFrom_overridden, transitHoursFrom_overridden.
    rewrite netHoursFrom_adj_overridden, transitHoursFrom_adj_overridden.
    unfold runEntry, bump, addTransit, addHours, initData, adjRecord.
    cbn [fwo emplid workDt payCode rate jobCode inTransit hours
         DISPLAY_EMPLOYEE WORK_DT LD1 PAY_CODE EFF_RATE LD8 HOURS UNIT9].
    rewrite Hp0, Hd, WORKED_ALLOCATED_REG_not_double.
    rewrite Hl0, He0, Hw0, Hj0, Hh0, Hu0, Hr0. reflexivity.
  - apply Forall_fmap. eapply Forall_impl; [exact HF|].
    intros r Hr. simpl.
    destruct (getMatchKey_sameGroup m r r0 Hr) as (Hk & Hkc & Hp).
    split; [done|]. split; [done|]. by rewrite Hp.
Qed.

(** The lines before a run that starts a group and after the group's end are
    those of the surrounding records run on their own. *)
Lemma written_around_run64 env m pre r0 rest post :
  unionCodeMap env = Some m →
  accepted env r0 →
  Forall (λ r, sameGroup r (groupFields r0) = true) rest →
  startsGroup pre r0 →
  endsGroup r0 post →
  summedRecords (processLoop env initState (pre ++ r0 :: rest)) =
    fold_left addData (overridden m <$> (r0 :: rest)) [] ∧
  written (processExportRecords env (pre ++ (r0 :: rest) ++ post)) =
    written (processExportRecords env pre) ++
    writeData (fold_left addData (overridden m <$> (r0 :: rest)) []) ++
    written (processExportRecords env post).
Proof.
  intros Hm Ha HF Hs He. split.
  - rewrite processLoop_new_group64 by done.
    by rewrite (processLoop_run64 env m r0 rest).
  - assert (Hrun : written (processExportRecords env (r0 :: rest)) =
                   writeData (fold_left addData (overridden m <$> (r0 :: rest)) [])).
    { unfold processExportRecords.
      by rewrite (processLoop_run64 env m r0 rest). }
    rewrite <- app_comm_cons, written_split64 by done. f_equal.
    destruct post as [|r' post].
    + rewrite app_nil_r, Hrun. simpl. by rewrite app_nil_r.
    + change (r0 :: rest ++ r' :: post) with ([] ++ (r0 :: rest) ++ r' :: post).
      rewrite app_nil_l.
      rewrite (written_split64 env (r0 :: rest) r' post).
      * by rewrite Hrun.
      * pose proof (currentGroup_run [] r0 rest eq_refl HF) as Hc.
        rewrite app_nil_l in Hc. unfold startsGroup. rewrite Hc.
        simpl. simpl in He. by rewrite He.
Qed.

(** ** Properties kept by every table entry and every written line *)

Lemma writeData_Forall64 (Q : Aggregate → Prop) t :
  Forall (λ ka, Q ka.2) t →
  Forall (λ row, ∃ a, Q a ∧ row = rowOf a) (writeData t).
Proof.
  intros HF. apply Forall_forall. intros row Hrow.
  apply writeData_rows64 in Hrow as (ka & Hin & ->).
  rewrite Forall_forall in HF. eauto.
Qed.

Section KeptEntries64.
Variable env : Env.
Variable Q : Aggregate → Prop.
Hypothesis Q_addHours : ∀ d a, Q a → Q (addHours d a).
Hypothesis Q_addTransit : ∀ d a, Q a → Q (addTransit d a).
Hypothesis Q_primary : ∀ r r', screen env r = Keep r' → Q (initData r').
Hypothesis Q_compensating : ∀ r r', screen env r = Keep r' →
  inArray DOUBLE_RATE_PAY_CODES (PAY_CODE r') = true →
  Q (initData (adjRecord r')).

Lemma entries_step64 st r : keeps Q st → keeps Q (step env st r).
Proof using Q_addHours Q_addTransit Q_primary Q_compensating.
  intros [Ht Hw].
  assert (Hf : keeps Q (flushGroup st r)).
  { unfold flushGroup. destruct (groupingChange st r); [|done].
    split; simpl; [constructor|].
    apply Forall_app. split; [done|]. by apply writeData_Forall64. }
  unfold step, tryBody.
  destruct (screen env r) as [|e|r'] eqn:Hs; simpl; try done.
  destruct Hf as [Ht' Hw']. split; simpl; [|done].
  rewrite addData_eq64.
  destruct (inArray DOUBLE_RATE_PAY_CODES (PAY_CODE r')) eqn:Hd.
  - apply accumulate_Forall64; eauto. apply accumulate_Forall64; eauto.
  - apply accumulate_Forall64; eauto.
Qed.

Lemma entries_processLoop64 l st :
  keeps Q st → keeps Q (processLoop env st l).
Proof using Q_addHours Q_addTransit Q_primary Q_compensating.
  revert st. induction l as [|r l IH]; intros st Hst; [done|].
  rewrite processLoop_cons64. apply IH. by apply entries_step64.
Qed.

Lemma entries_written64 l :
  Forall (λ row, ∃ a, Q a ∧ row = rowOf a)
         (written (processExportRecords env l)).
Proof using Q_addHours Q_addTransit Q_primary Q_compensating.
  assert (Hk : keeps Q (processLoop env initState l)).
  { apply entries_processLoop64. split; constructor. }
  destruct Hk as [Ht Hw]. unfold processExportRecords, finish. simpl.
  apply Forall_app. split; [done|]. by apply writeData_Forall64.
Qed.
End KeptEntries64.

Lemma screen_Keep_inv64 env r r' :
  screen env r = Keep r' →
  ∃ m, unionCodeMap env = Some m ∧ r' = overridden m r.
Proof.
  unfold screen, isUnionCodeNull, overridden, unionCodeBlank.
  destruct (negb (inArray (payCodeSet env) (PAY_CODE r))); [done|].
  destruct (LD1 r) as [ld1|]; [|done].
  destruct (negb (inArray VALID_FWO_PREFIXES (firstCharUpper ld1))); [done|].
  destruct (unionCodeMap env) as [m|]; [|done].
  intros [= <-]. eauto.
Qed.

(** The sums of the compensating records, in terms of the records they
    compensate. *)
Lemma transitHoursFrom_adjRecord run : ∀ t,
  transitHoursFrom t (adjRecord <$> run) =
  fold_left (λ t r, t + -1 * UNIT9 r)%float run t.
Proof.
  induction run as [|r run IH]; intros t; [reflexivity|].
  simpl. apply IH.
Qed.

Lemma netHoursFrom_adjRecord run :
  Forall (λ r, UNIT9 r = 0%float) run →
  ∀ h, netHoursFrom h (adjRecord <$> run) =
       fold_left (λ h r, h + (-1 * (HOURS r - 0) - -1 * 0))%float run h.
Proof.
  induction 1 as [|r run Hr _ IH]; intros h; [reflexivity|].
  simpl. rewrite Hr. apply IH.
Qed.

(** ** The claims on the aggregation *)

(** C2 (as amended). For every batch, sorted or not, and every maximal run of
    records that the script takes for one group (no group field of a record
    is [!=] to that of the record that started the run), pass the record
    filter and do not carry a double-rate pay code: once the run is read the
    table holds exactly one entry, under the key of the run's first record;
    its hours are the binary64 value that results from adding hours less
    transit of the run's records to 0 one after the other in input order,
    its transit likewise; and the run contributes exactly one line with
    these values to the file, or no line when the accumulated hours [== 0]. *)
Theorem grouping_correctness env m pre r0 rest post :
  unionCodeMap env = Some m →
  accepted env r0 →
  inArray DOUBLE_RATE_PAY_CODES (PAY_CODE r0) = false →
  Forall (λ r, sameGroup r (groupFields r0) = true) rest →
  startsGroup pre r0 →
  endsGroup r0 post →
  let run := r0 :: rest in
  let entry := runEntry r0 (PAY_CODE r0) (effectiveRate m r0) run in
  hours entry = fold_left (λ h r, h + (HOURS r - UNIT9 r))%float run 0%float ∧
  summedRecords (processLoop env initState (pre ++ run)) =
    [(getMatchKey (overridden m r0), entry)] ∧
  written (processExportRecords env (pre ++ run ++ post)) =
    written (processExportRecords env pre) ++
    (if PrimFloat.eqb (hours entry) 0 then [] else [rowOf entry]) ++
    written (processExportRecords env post).
Proof.
  intros Hm Ha Hd HF Hs He run entry. subst run entry.
  destruct (written_around_run64 env m pre r0 rest post) as [Ht Hw]; try done.
  split; [reflexivity|]. split.
  - rewrite Ht. by apply table_plain_run64.
  - rewrite Hw, (table_plain_run64 m r0 rest) by done.
    rewrite writeData_single64. unfold rowsOf. simpl.
    by rewrite app_nil_r.
Qed.

Lemma grouping_correctness_witness :
  let run := [regular tenth; regular twoTenths] in
  let entry := runEntry (regular tenth) "REG" 40 run in
  hours entry = (0 + (tenth - 0) + (twoTenths - 0))%float ∧
  summedRecords
    (processLoop sampleEnv initState ([unlisted8] ++ run)) =
    [("|E1|01/02/2024|M55|REG|40|JC1|", entry)] ∧
  written (processExportRecords sampleEnv ([unlisted8] ++ run ++ [golden 8 0])) =
    written (processExportRecords sampleEnv [unlisted8]) ++
    [rowOf entry] ++
    written (processExportRecords sampleEnv [golden 8 0]).
Proof.
  apply (grouping_correctness sampleEnv sampleUnionCodes [unlisted8]
           (regular tenth) [regular twoTenths] [golden 8 0]).
  - reflexivity.
  - split; [reflexivity|]. exists "M55". split; reflexivity.
  - reflexivity.
  - repeat constructor.
  - reflexivity.
  - reflexivity.
Defined.

(** A run with a double-rate pay code leaves two entries in the table and two
    lines in the file, not one; and the hours of a run are not the sum of a
    set of numbers: the same three records read in another order leave other
    hours, and hours that cancel in decimal leave a line. *)
Lemma grouping_counterexample :
  written (processExportRecords sampleEnv [golden 8 0]) =
    [mkRow 8 (Some "M55") "E1" "01/02/2024" "GOLDEN_TIME" 80 "JC1" 0;
     mkRow (-8) (Some "M55") "E1" "01/02/2024" "WORKED_ALLOCATED_REG" 40 "JC1" 0] ∧
  length (summedRecords (processLoop sampleEnv initState [golden 8 0])) = 2%nat ∧
  (¬ ∃ row, written (processExportRecords sampleEnv [golden 8 0]) = [row]) ∧
  PrimFloat.eqb
    (netHours [regular tenth; regular twoTenths; regular (- threeTenths)])
    (netHours [regular (- threeTenths); regular twoTenths; regular tenth])
    = false ∧
  length (written (processExportRecords sampleEnv
            [regular tenth; regular twoTenths; regular (- threeTenths)]))
    = 1%nat.
Proof.
  split; [reflexivity|]. split; [reflexivity|]. split.
  - intros [row Hrow]. vm_compute in Hrow. discriminate.
  - split; reflexivity.
Qed.

(** C1 (as amended). For a maximal run of accepted records with a double-rate
    pay code, R being the rate of the run's first record after the union-code
    override: the aggregator books the run under its own key at rate 2 × R,
    with the hours less transit and the transit of its records added up in
    input order; each record spawns a compensating record under
    WORKED_ALLOCATED_REG with hours -1 × (H - T) and transit -1 × T, and
    these reach the table under a second key, in one entry at rate R with
    the identity fields of the run; for records without transit the hours of
    that entry are the compensating records' hours added up in input order.
    Both entries are written with the double-rate group, each unless its
    hours [== 0]. *)
Theorem double_rate_compensation env m pre r0 rest post :
  unionCodeMap env = Some m →
  accepted env r0 →
  inArray DOUBLE_RATE_PAY_CODES (PAY_CODE r0) = true →
  Forall (λ r, sameGroup r (groupFields r0) = true) rest →
  startsGroup pre r0 →
  endsGroup r0 post →
  let run := r0 :: rest in
  let R := effectiveRate m r0 in
  let primary := runEntry r0 (PAY_CODE r0) (2 * R)%float run in
  (∀ r, r ∈ run →
     PAY_CODE (adjRecord (overridden m r)) = WORKED_ALLOCATED_REG ∧
     EFF_RATE (adjRecord (overridden m r)) = effectiveRate m r ∧
     HOURS (adjRecord (overridden m r)) = (-1 * (HOURS r - UNIT9 r))%float ∧
     UNIT9 (adjRecord (overridden m r)) = (-1 * UNIT9 r)%float) ∧
  hours primary = fold_left (λ h r, h + (HOURS r - UNIT9 r))%float run 0%float ∧
  ∃ compensating,
    summedRecords (processLoop env initState (pre ++ run)) =
      [(getMatchKey (overridden m r0), primary);
       (getMatchKey (adjRecord (overridden m r0)), compensating)] ∧
    getMatchKey (adjRecord (overridden m r0)) ≠ getMatchKey (overridden m r0) ∧
    fwo compensating = LD1 r0 ∧
    emplid compensating = DISPLAY_EMPLOYEE r0 ∧
    workDt compensating = WORK_DT r0 ∧
    payCode compensating = WORKED_ALLOCATED_REG ∧
    rate compensating = R ∧
    jobCode compensating = LD8 r0 ∧
    inTransit compensating =
      fold_left (λ t r, t + -1 * UNIT9 r)%float run 0%float ∧
    (Forall (λ r, UNIT9 r = 0%float) run →
     hours compensating =
       fold_left (λ h r, h + (-1 * (HOURS r - 0) - -1 * 0))%float run 0%float) ∧
    written (processExportRecords env (pre ++ run ++ post)) =
      written (processExportRecords env pre) ++
      rowsOf [primary; compensating] ++
      written (processExportRecords env post).
Proof.
  intros Hm Ha Hd HF Hs He run R primary. subst run R primary.
  destruct (written_around_run64 env m pre r0 rest post) as [Ht Hw]; try done.
  destruct (sameGroup_refl_fields m r0)
    as (Hp0 & Hl0 & He0 & Hw0 & Hj0 & Hh0 & Hu0 & Hr0).
  assert (Hne : getMatchKey (overridden m r0) ≠
                getMatchKey (adjRecord (overridden m r0))).
  { apply getMatchKey_adjRecord_ne64. by rewrite Hp0. }
  split; [|split; [reflexivity|]].
  - intros r _.
    destruct (sameGroup_refl_fields m r)
      as (_ & _ & _ & _ & _ & Hh & Hu & Hr).
    unfold adjRecord. cbn [PAY_CODE EFF_RATE HOURS UNIT9].
    by rewrite Hh, Hu, Hr.
  - exists (runEntry r0 WORKED_ALLOCATED_REG (effectiveRate m r0)
                     (adjRecord <$> (r0 :: rest))).
    split_and!; try reflexivity.
    + rewrite Ht. by apply table_double_run64.
    + done.
    + apply transitHoursFrom_adjRecord.
    + intros Hz. by apply netHoursFrom_adjRecord.
    + rewrite Hw, (table_double_run64 m r0 rest) by done.
      by rewrite writeData_pair64.
Qed.

Lemma double_rate_compensation_witness :
  let run := [golden 8 0; golden tenth 0] in
  let primary := runEntry (golden 8 0) "GOLDEN_TIME" 80 run in
  ∃ compensating,
    summedRecords (processLoop sampleEnv initState ([regular 8] ++ run)) =
      [("|E1|01/02/2024|M55|GOLDEN_TIME|40|JC1|", primary);
       ("|E1|01/02/2024|M55|WORKED_ALLOCATED_REG|40|JC1|", compensating)] ∧
    payCode compensating = WORKED_ALLOCATED_REG ∧
    rate compensating = 40%float ∧
    hours compensating =
      (0 + (-1 * (8 - 0) - -1 * 0) + (-1 * (tenth - 0) - -1 * 0))%float ∧
    written (processExportRecords sampleEnv
               ([regular 8] ++ run ++ [regular (-3)])) =
      written (processExportRecords sampleEnv [regular 8]) ++
      rowsOf [primary; compensating] ++
      written (processExportRecords sampleEnv [regular (-3)]).
Proof.
  destruct (double_rate_compensation sampleEnv sampleUnionCodes [regular 8]
              (golden 8 0) [golden tenth 0] [regular (-3)])
    as (_ & _ & c & Ht & _ & _ & _ & _ & Hp & Hr & _ & _ & Hh & Hw).
  - reflexivity.
  - split; [reflexivity|]. exists "M55". split; reflexivity.
  - reflexivity.
  - repeat constructor.
  - reflexivity.
  - reflexivity.
  - exists c. split_and!; [exact Ht | exact Hp | exact Hr | | exact Hw].
    apply Hh. repeat constructor.
Defined.

(** One golden-time record of 8 hours without transit: the two lines written
    for it carry 8 and -8 hours, so the hours exported for the record and its
    compensation add up to 0 and not to the record's 8 net hours. *)
Lemma double_rate_counterexample :
  written (processExportRecords sampleEnv [golden 8 0]) =
    [mkRow 8 (Some "M55") "E1" "01/02/2024" "GOLDEN_TIME" 80 "JC1" 0;
     mkRow (-8) (Some "M55") "E1" "01/02/2024" "WORKED_ALLOCATED_REG" 40 "JC1" 0] ∧
  writtenHours (written (processExportRecords sampleEnv [golden 8 0])) = 0%float ∧
  PrimFloat.eqb
    (writtenHours (written (processExportRecords sampleEnv [golden 8 0])))
    (HOURS (golden 8 0) - UNIT9 (golden 8 0)) = false.
Proof. split; [reflexivity|]. split; reflexivity. Qed.

(** ** The union-code lookup *)

(** C5. The map that [buildUnionCodeMap] makes of an employee list with the
    one employee E1 has no entry for the employee numbers E2 and constructor.
    A record of E2 that passes the filter is written with rate 0, as the
    claim says. A record of constructor that passes the filter is written
    with its own rate 55: the lookup of line 293 finds the function that
    every object inherits under that name, so [isUnionCodeNull] answers
    false although no record exists for the employee. *)
Theorem inherited_name_keeps_rate :
  let env := mkEnv ["REG"] (Some (buildUnionCodeMap [("E1", Some "IBEW")])) in
  own (buildUnionCodeMap [("E1", Some "IBEW")]) !! "E2" = None ∧
  own (buildUnionCodeMap [("E1", Some "IBEW")]) !! "constructor" = None ∧
  screen env unlisted8 = Keep (zeroRate unlisted8) ∧
  screen env inheritedName8 = Keep inheritedName8 ∧
  isUnionCodeNull env "E2" = inr true ∧
  isUnionCodeNull env "constructor" = inr false ∧
  written (processExportRecords env [unlisted8]) =
    [mkRow 8 (Some "f200") "E2" "01/02/2024" "REG" 0 "JC1" 0] ∧
  written (processExportRecords env [inheritedName8]) =
    [mkRow 8 (Some "f200") "constructor" "01/02/2024" "REG" 55 "JC1" 0].
Proof. split_and!; reflexivity. Qed.

(** When is the lookup blank: no entry and no inherited property of that
    name, or an entry that is null or empty. *)
Lemma unionCodeBlank_spec m e :
  unionCodeBlank m e = true ↔
  (own m !! e = None ∧ ¬ (hasPrototype m = true ∧ e ∈ objectPrototype)) ∨
  own m !! e = Some None ∨ own m !! e = Some (Some "").
Proof.
  unfold unionCodeBlank, getProperty, inArray.
  destruct (own m !! e) as [[s|]|]; simpl.
  - rewrite bool_decide_eq_true. split.
    + intros ->. right. by right.
    + intros [[? _]|[?|?]]; congruence.
  - split; [|done]. intros _. right. by left.
  - destruct (hasPrototype m); simpl.
    + destruct (bool_decide (e ∈ objectPrototype)) eqn:Hin; simpl.
      * apply bool_decide_eq_true in Hin. split; [done|].
        intros [[_ Hn]|[?|?]]; try done. by destruct Hn.
      * apply bool_decide_eq_false in Hin. split; [|done]. intros _.
        left. split; [done|]. by intros [_ ?].
    + split; [|done]. intros _. left. split; [done|]. by intros [? _].
Qed.

(** The map made of an employee list in which no employee goes by the name
    [__proto__] keeps its prototype and holds, for every employee, the union
    code of the last row that names the employee. *)
Lemma buildUnionCodeMap_own results :
  "__proto__" ∉ results.*1 →
  hasPrototype (buildUnionCodeMap results) = true ∧
  own (buildUnionCodeMap results) =
    fold_left (λ returnMap res, <[res.1 := res.2]> returnMap) results ∅.
Proof.
  unfold buildUnionCodeMap.
  assert (H : ∀ m, "__proto__" ∉ results.*1 →
    hasPrototype (fold_left (λ returnMap res, setProperty returnMap res.1 res.2)
                            results m) = hasPrototype m ∧
    own (fold_left (λ returnMap res, setProperty returnMap res.1 res.2)
                   results m) =
    fold_left (λ returnMap res, <[res.1 := res.2]> returnMap) results (own m)).
  { induction results as [|[e c] results IH]; intros m Hn; [done|].
    rewrite fmap_cons, not_elem_of_cons in Hn. destruct Hn as [Hne Hn].
    simpl in Hne. simpl. destruct (IH (setProperty m e c) Hn) as [-> ->].
    unfold setProperty. rewrite bool_decide_eq_false_2 by done. done. }
  intros Hn. by destruct (H emptyObject Hn).
Qed.

(** X17. With a union-code map in place, a record that passes the filter has
    an entry under its key after its turn; when the turn creates the entry,
    the entry carries the record's employee and the record's rate, doubled
    under a double-rate pay code, and rate 0 when the lookup for the
    employee is blank. The lookup is blank for an employee without entry in
    the map whose number is not the name of an inherited property, and for
    one whose union code is null or empty. Every line written for an
    employee whose lookup is blank carries rate 0. *)
Theorem missing_union_code_zero_rate env m exportRecords :
  unionCodeMap env = Some m →
  (∀ st r, accepted env r →
     ∃ a, lt_get (getMatchKey (overridden m r))
                 (summedRecords (step env st r)) = Some a ∧
          (lt_get (getMatchKey (overridden m r))
                  (summedRecords (flushGroup st r)) = None →
           emplid a = DISPLAY_EMPLOYEE r ∧
           rate a = (if inArray DOUBLE_RATE_PAY_CODES (PAY_CODE r)
                     then (2 * effectiveRate m r)%float
                     else effectiveRate m r) ∧
           (unionCodeBlank m (DISPLAY_EMPLOYEE r) = true →
            rate a = 0%float))) ∧
  (∀ e, unionCodeBlank m e = true ↔
        (own m !! e = None ∧ ¬ (hasPrototype m = true ∧ e ∈ objectPrototype)) ∨
        own m !! e = Some None ∨ own m !! e = Some (Some "")) ∧
  Forall (λ row, unionCodeBlank m (row_EMPLID row) = true →
                 row_RATE row = 0%float)
         (written (processExportRecords env exportRecords)).
Proof.
  intros Hm. split_and!.
  - intros st r Ha.
    destruct (sameGroup_refl_fields m r)
      as (Hp0 & Hl0 & He0 & Hw0 & Hj0 & Hh0 & Hu0 & Hr0).
    unfold step, tryBody. rewrite (screen_accepted64 env m r) by done.
    cbn [summedRecords]. rewrite addData_eq64, Hp0.
    set (t := summedRecords (flushGroup st r)).
    assert (Hcreated :
      lt_get (getMatchKey (overridden m r)) t = None →
      let a := bump (overridden m r)
                 (default (initData (overridden m r))
                    (lt_get (getMatchKey (overridden m r)) t)) in
      emplid a = DISPLAY_EMPLOYEE r ∧
      rate a = (if inArray DOUBLE_RATE_PAY_CODES (PAY_CODE r)
                then (2 * effectiveRate m r)%float else effectiveRate m r) ∧
      (unionCodeBlank m (DISPLAY_EMPLOYEE r) = true → rate a = 0%float)).
    { intros ->. cbn [default]. unfold bump, addTransit, addHours, initData.
      cbn [emplid rate]. rewrite Hp0, He0, Hr0. split_and!; try reflexivity.
      intros Hb. unfold effectiveRate. rewrite Hb.
      destruct (inArray DOUBLE_RATE_PAY_CODES (PAY_CODE r));
        [apply double_zero | reflexivity]. }
    destruct (inArray DOUBLE_RATE_PAY_CODES (PAY_CODE r)) eqn:Hd.
    + eexists. split.
      * rewrite lt_get_accumulate64, decide_False.
        -- rewrite lt_get_accumulate64, decide_True by done. reflexivity.
        -- apply getMatchKey_adjRecord_ne64. by rewrite Hp0.
      * exact Hcreated.
    + eexists. split.
      * rewrite lt_get_accumulate64, decide_True by done. reflexivity.
      * exact Hcreated.
  - apply unionCodeBlank_spec.
  - eapply Forall_impl.
    + apply (entries_written64 env
               (λ a, unionCodeBlank m (emplid a) = true → rate a = 0%float)).
      * done.
      * done.
      * intros r r' (m' & Hm' & ->)%screen_Keep_inv64.
        assert (m' = m) as -> by congruence.
        destruct (sameGroup_refl_fields m r)
          as (Hp0 & Hl0 & He0 & Hw0 & Hj0 & Hh0 & Hu0 & Hr0).
        unfold initData. cbn [emplid rate]. rewrite He0, Hr0. intros Hb.
        unfold effectiveRate. rewrite Hb.
        destruct (inArray DOUBLE_RATE_PAY_CODES _);
          [apply double_zero | reflexivity].
      * intros r r' (m' & Hm' & ->)%screen_Keep_inv64 _.
        assert (m' = m) as -> by congruence.
        destruct (sameGroup_refl_fields m r)
          as (Hp0 & Hl0 & He0 & Hw0 & Hj0 & Hh0 & Hu0 & Hr0).
        unfold initData, adjRecord.
        cbn [emplid rate DISPLAY_EMPLOYEE PAY_CODE EFF_RATE].
        rewrite WORKED_ALLOCATED_REG_not_double, He0, Hr0. intros Hb.
        unfold effectiveRate. by rewrite Hb.
    + intros row (a & Ha & ->). exact Ha.
Qed.

Lemma missing_union_code_zero_rate_witness :
  Forall (λ row, unionCodeBlank sampleUnionCodes (row_EMPLID row) = true →
                 row_RATE row = 0%float)
         (written (processExportRecords sampleEnv
                     [regular 8; unlisted8; inheritedName8])) ∧
  written (processExportRecords sampleEnv [regular 8; unlisted8; inheritedName8]) =
    [mkRow 8 (Some "M55") "E1" "01/02/2024" "REG" 40 "JC1" 0;
     mkRow 8 (Some "f200") "E2" "01/02/2024" "REG" 0 "JC1" 0;
     mkRow 8 (Some "f200") "constructor" "01/02/2024" "REG" 55 "JC1" 0].
Proof.
  split; [|reflexivity].
  apply (missing_union_code_zero_rate sampleEnv sampleUnionCodes
           [regular 8; unlisted8; inheritedName8]).
  reflexivity.
Defined.

(** ** Groups and keys *)

Lemma getMatchKey_sameGroup_plain r r0 :
  sameGroup r (groupFields r0) = true → getMatchKey r = getMatchKey r0.
Proof.
  intros (He & Hw & Hl & Hp & Hr & Hj)%sameGroup_inv. simpl in *.
  unfold getMatchKey. rewrite He, Hw, Hl, Hp, Hj.
  by rewrite (showNumber_eqb _ _ Hr).
Qed.

(** X18. The records that the script takes for one group share one match
    key, before and after the union-code override, and so do their
    compensating records: rates that are [==] print alike, 0 and -0 both as
    0. A run of one group therefore never spreads over more keys than the
    key of its first record and that of its compensating record. *)
Theorem group_shares_key m r r0 :
  sameGroup r (groupFields r0) = true →
  getMatchKey r = getMatchKey r0 ∧
  getMatchKey (overridden m r) = getMatchKey (overridden m r0) ∧
  getMatchKey (adjRecord (overridden m r)) =
    getMatchKey (adjRecord (overridden m r0)).
Proof.
  intros Hs. split; [by apply getMatchKey_sameGroup_plain|].
  destruct (getMatchKey_sameGroup m r r0 Hs) as (H1 & H2 & _). done.
Qed.

Lemma group_shares_key_witness :
  PrimFloat.eqb (EFF_RATE zeroRated) (EFF_RATE minusZeroRated) = true ∧
  getMatchKey zeroRated = "|E1|01/02/2024|M55|REG|0|JC1|" ∧
  getMatchKey minusZeroRated = getMatchKey zeroRated.
Proof.
  split; [reflexivity|]. split; [reflexivity|].
  apply (group_shares_key sampleUnionCodes minusZeroRated zeroRated).
  reflexivity.
Defined.
